(** * File-Structure-Generator: the parsers and the materializer of
      [generator.py], embedded in Rocq.

    A Python [str] is a sequence of Unicode code points: it is modelled as a
    list of [N].  A Python [dict] keeps insertion order: it is modelled as an
    association list whose update replaces the value of an existing key in
    place and appends a new key at the end.  Exceptions are an error monad. *)

From Stdlib Require Import String Ascii.
From stdpp Require Import base tactics numbers option list.

Open Scope N_scope.
Open Scope list_scope.

(** ** Python strings *)

Abbreviation str := (list N).

(** A literal of the source made of ASCII characters. *)
Definition py (s : string) : str := map N_of_ascii (list_ascii_of_string s).

Definition SPACE : N := 32.
Definition NEWLINE : N := 10.
Definition DOT : N := 46.
Definition SLASH : N := 47.
(** The tree-drawing glyphs of the source: U+251C, U+2514, U+2502, U+2500. *)
Definition TEE : N := 9500.
Definition CORNER : N := 9492.
Definition VBAR : N := 9474.
Definition DASH : N := 9472.

(** [str.isspace] on one code point, which is also what [str.strip] trims and
    what the pattern [\s] matches on a [str]: the characters of bidirectional
    type WS, B or S and those of category Zs. *)
Definition isspace (c : N) : bool :=
  ((9 <=? c) && (c <=? 13)) || ((28 <=? c) && (c <=? 32))
  || (c =? 133) || (c =? 160) || (c =? 5760)
  || ((8192 <=? c) && (c <=? 8202))
  || (c =? 8232) || (c =? 8233) || (c =? 8239) || (c =? 8287) || (c =? 12288).

Fixpoint drop_while (p : N -> bool) (s : str) : str :=
  match s with
  | [] => []
  | c :: r => if p c then drop_while p r else s
  end.

(** [s.lstrip()], [s.rstrip()], [s.strip()] *)
Definition lstrip (s : str) : str := drop_while isspace s.
Definition rstrip (s : str) : str := rev (drop_while isspace (rev s)).
Definition strip (s : str) : str := lstrip (rstrip s).

(** [s.rstrip(chars)] for a one-character [chars] *)
Definition rstrip_char (ch : N) (s : str) : str :=
  rev (drop_while (N.eqb ch) (rev s)).

(** [ch in s] for a one-character [ch] *)
Definition contains (ch : N) (s : str) : bool := existsb (N.eqb ch) s.

(** [s.replace(old, new)] for one-character [old] and [new] *)
Definition replace (old new : N) (s : str) : str :=
  map (fun c => if c =? old then new else c) s.

(** [s.split(sep)] for a one-character [sep]: never the empty list. *)
Fixpoint split (sep : N) (s : str) : list str :=
  match s with
  | [] => [[]]
  | c :: r =>
      if c =? sep then [] :: split sep r
      else match split sep r with
           | h :: t => (c :: h) :: t
           | [] => [[c]]
           end
  end.

(** [s.endswith(ch)] for a one-character [ch] *)
Definition endswith (ch : N) (s : str) : bool :=
  match list.last s with
  | Some c => c =? ch
  | None => false
  end.

Fixpoint startswith (p s : str) : bool :=
  match p, s with
  | [], _ => true
  | _ :: _, [] => false
  | a :: p', b :: s' => (a =? b) && startswith p' s'
  end.

(** [p in s] for two strings: [p] occurs in [s] as a substring. *)
Fixpoint substring_in (p s : str) : bool :=
  startswith p s ||
  match s with
  | [] => false
  | _ :: s' => substring_in p s'
  end.

(** ** Exceptions *)

Inductive exn : Set :=
  | TypeError
  | KeyError
  | IndexError
  | FileExistsError
  | FileNotFoundError
  | NotADirectoryError
  | IsADirectoryError
  | LoopBound. (* a bounded loop of the model ran out of steps: never Python's *)

Inductive res (A : Type) : Type :=
  | Ok (a : A)
  | Raise (e : exn).
Arguments Ok {A} a.
Arguments Raise {A} e.

#[global] Instance res_ret : MRet res := fun A a => Ok a.
#[global] Instance res_bind : MBind res := fun A B f m =>
  match m with
  | Ok a => f a
  | Raise e => Raise e
  end.

Definition is_ok {A} (r : res A) : bool :=
  match r with Ok _ => true | Raise _ => false end.

(** ** The Tree Model *)

(** A value stored in a mapping: the content of a file (a [str]) or a nested
    mapping. *)
#[local] Unset Elimination Schemes.
Inductive node : Type :=
  | File (content : str)
  | Dir (entries : list (str * node)).
#[local] Set Elimination Schemes.

Section Dict.
Context {K V : Type} `{EqDecision K}.

(** [d.get(k)] *)
Fixpoint dict_get (k : K) (d : list (K * V)) : option V :=
  match d with
  | [] => None
  | (k', v) :: r => if bool_decide (k' = k) then Some v else dict_get k r
  end.

(** [k in d] *)
Definition dict_mem (k : K) (d : list (K * V)) : bool :=
  match dict_get k d with Some _ => true | None => false end.

(** [d[k] = v]: an existing key keeps its position, a new one goes last. *)
Fixpoint dict_set (k : K) (v : V) (d : list (K * V)) : list (K * V) :=
  match d with
  | [] => [(k, v)]
  | (k', v') :: r =>
      if bool_decide (k' = k) then (k, v) :: r else (k', v') :: dict_set k v r
  end.
End Dict.

(** [part in current], [current[k] = v] and [current[k]] when [current] is
    whichever value the walk has reached: a mapping or a string. *)
Definition py_contains (part : str) (current : node) : bool :=
  match current with
  | Dir d => dict_mem part d
  | File s => substring_in part s
  end.

Definition py_setitem (current : node) (k : str) (v : node) : res node :=
  match current with
  | Dir d => Ok (Dir (dict_set k v d))
  | File _ => Raise TypeError
  end.

Definition py_getitem (current : node) (k : str) : res node :=
  match current with
  | Dir d => match dict_get k d with
             | Some v => Ok v
             | None => Raise KeyError
             end
  | File _ => Raise TypeError
  end.

(** The entry that a path of names leads to. *)
Fixpoint get_path (path : list str) (n : node) : option node :=
  match path with
  | [] => Some n
  | k :: r =>
      match n with
      | Dir d => dict_get k d ≫= get_path r
      | File _ => None
      end
  end.

(** The path at which a cleaned line puts its entry. *)
Definition entry_path (clean_line : str) : list str :=
  if contains SLASH clean_line then split SLASH clean_line else [clean_line].

(** ** The Path Parser: [parse_folder_structure] *)

Definition tree_chars : list N := [TEE; CORNER; VBAR; DASH].

(** The glyphs replaced by spaces, one [replace] per glyph. *)
Definition replace_tree_chars (line : str) : str :=
  fold_left (fun clean_line char => replace char SPACE clean_line) tree_chars line.

(** [leading_spaces // 2]: computed by the source and used nowhere. *)
Definition indent_level (clean_line : str) : N :=
  (N.of_nat (length clean_line) - N.of_nat (length (lstrip clean_line))) / 2.

Definition last_segment (clean_line : str) : str :=
  default [] (list.last (split SLASH clean_line)).

Definition is_file (clean_line : str) : bool :=
  if contains SLASH clean_line then contains DOT (last_segment clean_line)
  else contains DOT clean_line.

(** The loop over [enumerate(parts)].  [current] is a reference into the
    tree under construction; the mapping it is reached from sees the
    changes made through it, which is the final [py_setitem] here. *)
Fixpoint walk (file : bool) (parts : list str) (current : node) : res node :=
  match parts with
  | [] => Ok current
  | part :: rest =>
      match rest with
      | [] =>
          if file then py_setitem current part (File [])
          else if negb (py_contains part current)
               then py_setitem current part (Dir [])
               else Ok current
      | _ :: _ =>
          current1 ← (if negb (py_contains part current)
                      then py_setitem current part (Dir [])
                      else Ok current);
          child ← py_getitem current1 part;
          child' ← walk file rest child;
          py_setitem current1 part child'
      end
  end.

(** Lines 37 to 60: one cleaned, non-empty line added to [root]. *)
Definition add_entry (clean_line : str) (root : node) : res node :=
  let file := is_file clean_line in
  if contains SLASH clean_line then walk file (split SLASH clean_line) root
  else if file then py_setitem root clean_line (File [])
  else if negb (py_contains clean_line root)
       then py_setitem root clean_line (Dir [])
       else Ok root.

(** The body of the loop over the lines. *)
Definition path_line (root : node) (line : str) : res node :=
  let line := rstrip line in
  match line with
  | [] => Ok root
  | _ :: _ =>
      let clean_line := replace_tree_chars line in
      let _indent_level := indent_level clean_line in
      let clean_line := strip clean_line in
      match clean_line with
      | [] => Ok root
      | _ :: _ => add_entry clean_line root
      end
  end.

Fixpoint path_lines (lines : list str) (root : node) : res node :=
  match lines with
  | [] => Ok root
  | line :: rest => root' ← path_line root line; path_lines rest root'
  end.

Definition parse_folder_structure (text_input : str) : res node :=
  path_lines (split NEWLINE (strip text_input)) (Dir []).

(** ** The Indent Parser: [parse_tree_structure] *)

(** The character class of the pattern [[│├└──]]. *)
Definition is_glyph (c : N) : bool :=
  existsb (N.eqb c) [VBAR; TEE; CORNER; DASH; DASH].

(** [re.sub(r'[│├└──]\s*', '', line)]: scanning from the left, every glyph is
    deleted together with the longest run of whitespace that follows it.
    [in_match] says that the previous character was consumed by a match
    that can still grow. *)
Fixpoint re_sub (in_match : bool) (line : str) : str :=
  match line with
  | [] => []
  | c :: r =>
      if is_glyph c then re_sub true r
      else if in_match && isspace c then re_sub true r
      else c :: re_sub false r
  end.

Definition tree_clean_line (line : str) : str := strip (re_sub false line).

(** The loop that counts the indentation: one for every leading space or
    vertical bar, stopping at the first other character. *)
Fixpoint scan_indent (line : str) (indent : Z) : Z :=
  match line with
  | [] => indent
  | char :: r =>
      if existsb (N.eqb char) [SPACE; VBAR] then scan_indent r (indent + 1)%Z
      else indent
  end.

Definition is_directory (clean_line : str) : bool :=
  endswith SLASH clean_line
  || (negb (contains DOT (last_segment clean_line))
      && negb (contains SLASH clean_line)).

(** The mappings of this parser are shared between [stack] and the mapping
    that holds them, so they live in a store: an address is an index in
    [heap], and a mapping holds a string or the address of a mapping. *)
Inductive hval : Type :=
  | HStr (s : str)
  | HRef (a : nat).

Record tstate : Type := TState {
  heap : list (list (str * hval));
  stack : list nat;
  path_stack : list str
}.

(** [l.pop()], [l[-1]] and [l[0]] *)
Definition list_pop {A} (l : list A) : res (list A) :=
  match l with
  | [] => Raise IndexError
  | _ :: _ => Ok (removelast l)
  end.

Definition list_top {A} (l : list A) : res A :=
  match list.last l with
  | Some x => Ok x
  | None => Raise IndexError
  end.

Definition list_first {A} (l : list A) : res A :=
  match l with
  | x :: _ => Ok x
  | [] => Raise IndexError
  end.

(** [while len(stack) > indent + 1: stack.pop(); path_stack.pop()], at most
    [fuel] times round the loop. *)
Fixpoint pop_too_deep (fuel : nat) (indent : Z) (st : tstate) : res tstate :=
  if (Z.of_nat (length (stack st)) >? indent + 1)%Z then
    match fuel with
    | O => Raise LoopBound
    | S fuel' =>
        stack' ← list_pop (stack st);
        path_stack' ← list_pop (path_stack st);
        pop_too_deep fuel' indent (TState (heap st) stack' path_stack')
    end
  else Ok st.

(** [heap[a][k] = v] *)
Definition heap_set (a : nat) (k : str) (v : hval)
    (h : list (list (str * hval))) : list (list (str * hval)) :=
  alter (dict_set k v) a h.

(** What a line that is not skipped does, once the stack is cut back. *)
Definition tree_entry (clean_line : str) (st : tstate) : res tstate :=
  current_level ← list_top (stack st);
  if is_directory clean_line then
    let name := rstrip_char SLASH clean_line in
    let fresh := length (heap st) in
    Ok (TState (heap_set current_level name (HRef fresh) (heap st ++ [[]]))
               (stack st ++ [fresh])
               (path_stack st ++ [name]))
  else
    Ok (TState (heap_set current_level clean_line (HStr []) (heap st))
               (stack st) (path_stack st)).

(** The body of the loop over the lines. *)
Definition tree_line (st : tstate) (line : str) : res tstate :=
  match strip line with
  | [] => Ok st
  | _ :: _ =>
      let clean_line := tree_clean_line line in
      match clean_line with
      | [] => Ok st
      | _ :: _ =>
          let indent := scan_indent line 0 in
          st' ← pop_too_deep (length (stack st)) indent st;
          tree_entry clean_line st'
      end
  end.

Fixpoint tree_lines (lines : list str) (st : tstate) : res tstate :=
  match lines with
  | [] => Ok st
  | line :: rest => st' ← tree_line st line; tree_lines rest st'
  end.

(** [stack = [{}]] and [path_stack = [""]]: the root mapping is at address 0. *)
Definition tree_init : tstate := TState [[]] [0%nat] [[]].

Definition parse_tree_state (text_input : str) : res tstate :=
  tree_lines (split NEWLINE (strip text_input)) tree_init.

(** The tree that a mapping of the store denotes, followed to depth [fuel]. *)
Fixpoint reify (fuel : nat) (h : list (list (str * hval))) (a : nat) : node :=
  match fuel with
  | O => Dir []
  | S fuel' =>
      Dir (map (fun kv => (kv.1, match kv.2 with
                                 | HStr s => File s
                                 | HRef b => reify fuel' h b
                                 end))
               (default [] (h !! a)))
  end.

(** [return stack[0]] *)
Definition parse_tree_structure (text_input : str) : res node :=
  st ← parse_tree_state text_input;
  root ← list_first (stack st);
  Ok (reify (length (heap st)) (heap st) root).

(** ** The filesystem that the Materializer writes to *)

(** The collaborators of [create_structure] are [os.path.join],
    [os.path.dirname], [os.path.exists], [os.makedirs] and [open]; those of
    the summary of [main] are [os.walk].  They are modelled on a POSIX
    filesystem without links, permission failures or other processes: a
    tree of directories and files below the root directory, and the
    current directory as a path of names from the root.  A directory lists
    its entries in the order of their creation. *)
Record fs : Type := Fs {
  cwd : list str;
  root : node
}.

(** A filesystem operation ends normally or raises; either way it leaves a
    filesystem behind. *)
Inductive outcome : Type :=
  | Done (s : fs)
  | Failed (e : exn) (s : fs).

Definition and_then (o : outcome) (k : fs -> outcome) : outcome :=
  match o with
  | Done s => k s
  | Failed e s => Failed e s
  end.

Notation "o >>> k" := (and_then o k) (at level 61, left associativity).

Fixpoint take_while (p : N -> bool) (s : str) : str :=
  match s with
  | [] => []
  | c :: r => if p c then c :: take_while p r else []
  end.

Definition not_slash (c : N) : bool := negb (c =? SLASH).

(** [posixpath.join(a, b)] *)
Definition path_join (a b : str) : str :=
  if startswith [SLASH] b then b
  else if bool_decide (a = []) || endswith SLASH a then a ++ b
  else a ++ [SLASH] ++ b.

(** [posixpath.split(p)]: the text up to the last slash, without its
    trailing slashes unless it is made of slashes, and the text after it. *)
Definition path_split (p : str) : str * str :=
  let head := rev (drop_while not_slash (rev p)) in
  let tail := rev (take_while not_slash (rev p)) in
  (if negb (bool_decide (head = [])) && negb (forallb (N.eqb SLASH) head)
   then rstrip_char SLASH head else head,
   tail).

(** [posixpath.dirname(p)] *)
Definition dirname (p : str) : str := (path_split p).1.

(** The subtree at a path gets replaced by its image under [f]. *)
Fixpoint alter_path (f : node -> node) (path : list str) (n : node) : node :=
  match path with
  | [] => f n
  | k :: r =>
      match n with
      | Dir d =>
          match dict_get k d with
          | Some child => Dir (dict_set k (alter_path f r child) d)
          | None => n
          end
      | File _ => n
      end
  end.

(** The entry [name] of a directory becomes [v]. *)
Definition dir_add (name : str) (v : node) (n : node) : node :=
  match n with
  | Dir d => Dir (dict_set name v d)
  | File _ => n
  end.

(** The names between the slashes of a path. *)
Definition components (path : str) : list str :=
  List.filter (fun c => negb (bool_decide (c = []))) (split SLASH path).

(** One step of path resolution, from the directory [dir] through the name
    [c], which has to lead to a directory. *)
Definition step_dir (r : node) (dir : list str) (c : str) : res (list str) :=
  if bool_decide (c = py ".") then Ok dir
  else if bool_decide (c = py "..") then Ok (removelast dir)
  else match get_path (dir ++ [c]) r with
       | Some (Dir _) => Ok (dir ++ [c])
       | Some (File _) => Raise NotADirectoryError
       | None => Raise FileNotFoundError
       end.

Fixpoint walk_dirs (r : node) (dir : list str) (comps : list str)
    : res (list str) :=
  match comps with
  | [] => Ok dir
  | c :: rest => dir' ← step_dir r dir c; walk_dirs r dir' rest
  end.

(** What a path names: a directory reached through [.], [..] or the root,
    or the entry [name] (there or not) of the directory [parent]. *)
Inductive named : Type :=
  | AtDir (dir : list str)
  | Entry (parent : list str) (name : str) (trailing_slash : bool).

Definition namei (s : fs) (path : str) : res named :=
  match path with
  | [] => Raise FileNotFoundError
  | _ :: _ =>
      let comps := components path in
      let start := if startswith [SLASH] path then [] else cwd s in
      match list.last comps with
      | None => Ok (AtDir [])
      | Some c =>
          parent ← walk_dirs (root s) start (removelast comps);
          if bool_decide (c = py ".") then Ok (AtDir parent)
          else if bool_decide (c = py "..") then Ok (AtDir (removelast parent))
          else Ok (Entry parent c (endswith SLASH path))
      end
  end.

(** [os.stat(path)], as far as the kind of the entry goes *)
Definition os_stat (path : str) (s : fs) : res node :=
  named ← namei s path;
  match named with
  | AtDir dir =>
      match get_path dir (root s) with
      | Some n => Ok n
      | None => Raise FileNotFoundError
      end
  | Entry parent name trailing =>
      match get_path (parent ++ [name]) (root s) with
      | Some (Dir d) => Ok (Dir d)
      | Some (File c) => if trailing then Raise NotADirectoryError else Ok (File c)
      | None => Raise FileNotFoundError
      end
  end.

(** [os.path.exists(path)] and [os.path.isdir(path)] *)
Definition path_exists (path : str) (s : fs) : bool := is_ok (os_stat path s).

Definition path_isdir (path : str) (s : fs) : bool :=
  match os_stat path s with
  | Ok (Dir _) => true
  | _ => false
  end.

(** [os.mkdir(path)] *)
Definition os_mkdir (path : str) (s : fs) : outcome :=
  match namei s path with
  | Raise e => Failed e s
  | Ok (AtDir _) => Failed FileExistsError s
  | Ok (Entry parent name _) =>
      match get_path (parent ++ [name]) (root s) with
      | Some _ => Failed FileExistsError s
      | None =>
          Done (Fs (cwd s) (alter_path (dir_add name (Dir [])) parent (root s)))
      end
  end.

(** [with open(path, 'w') as f: f.write(content)]: the file is made if it
    is not there and its content is replaced. *)
Definition write_file (path content : str) (s : fs) : outcome :=
  match namei s path with
  | Raise e => Failed e s
  | Ok (AtDir _) => Failed IsADirectoryError s
  | Ok (Entry parent name trailing) =>
      match get_path (parent ++ [name]) (root s) with
      | Some (Dir _) => Failed IsADirectoryError s
      | Some (File _) =>
          if trailing then Failed IsADirectoryError s
          else Done (Fs (cwd s)
                       (alter_path (dir_add name (File content)) parent (root s)))
      | None =>
          if trailing then Failed IsADirectoryError s
          else Done (Fs (cwd s)
                       (alter_path (dir_add name (File content)) parent (root s)))
      end
  end.

(** [os.makedirs(name, exist_ok=True)], as CPython's [os] module writes it;
    [fuel] bounds the recursion on the head of the path. *)
Fixpoint makedirs (fuel : nat) (name : str) (s : fs) : outcome :=
  match fuel with
  | O => Failed LoopBound s
  | S fuel' =>
      let '(head, tail) := path_split name in
      let '(head, tail) :=
        if bool_decide (tail = []) then path_split head else (head, tail) in
      let missing :=
        negb (bool_decide (head = [])) && negb (bool_decide (tail = []))
        && negb (path_exists head s) in
      (if missing
       then match makedirs fuel' head s with
            | Failed FileExistsError s' => Done s'
            | o => o
            end
       else Done s) >>> fun s1 =>
      if missing && bool_decide (tail = py ".") then Done s1
      else match os_mkdir name s1 with
           | Done s2 => Done s2
           | Failed e s2 => if path_isdir name s2 then Done s2 else Failed e s2
           end
  end.

Definition os_makedirs (name : str) (s : fs) : outcome :=
  makedirs (S (length name)) name s.

(** ** The Materializer: [create_structure] *)

Fixpoint for_each {A} (f : A -> fs -> outcome) (l : list A) (s : fs) : outcome :=
  match l with
  | [] => Done s
  | a :: r => f a s >>> for_each f r
  end.

(** The body of the loop of [create_structure] for one item, with the
    recursive call on the items of a nested mapping. *)
Fixpoint create_entry (base_path name : str) (content : node) (s : fs)
    : outcome :=
  let full_path := path_join base_path name in
  match content with
  | Dir structure =>
      os_makedirs full_path s >>>
      for_each (fun item => create_entry full_path item.1 item.2) structure
  | File content =>
      let parent_dir := dirname full_path in
      (if negb (bool_decide (parent_dir = []))
          && negb (path_exists parent_dir s)
       then os_makedirs parent_dir s
       else Done s) >>>
      write_file full_path content
  end.

Definition create_structure (base_path : str) (structure : list (str * node))
    (s : fs) : outcome :=
  for_each (fun item => create_entry base_path item.1 item.2) structure s.

(** ** The summary of [main] *)

Definition is_dir (n : node) : bool :=
  match n with Dir _ => true | File _ => false end.

(** [os.walk] below a directory: for every directory, top down, the names
    of its subdirectories and the names of its other entries. *)
Fixpoint walk_tree (n : node) : list (list str * list str) :=
  match n with
  | File _ => []
  | Dir d =>
      ((List.filter (fun kv => is_dir kv.2) d).*1,
       (List.filter (fun kv => negb (is_dir kv.2)) d).*1)
      :: concat (map (fun kv => walk_tree kv.2) d)
  end.

(** [os.walk(top)]: nothing when [top] is not a directory. *)
Definition os_walk (top : str) (s : fs) : list (list str * list str) :=
  match os_stat top s with
  | Ok (Dir d) => walk_tree (Dir d)
  | _ => []
  end.

(** One turn of the loop that counts: [folder_count += len(dirs)] and
    [file_count += len(files)]. *)
Definition count_step (counts : nat * nat) (step : list str * list str)
    : nat * nat :=
  (counts.1 + length step.1, counts.2 + length step.2)%nat.

(** [(folder_count, file_count)] after the loop over [os.walk(main_folder)]. *)
Definition summary_counts (main_folder : str) (s : fs) : nat * nat :=
  fold_left count_step (os_walk main_folder s) (0%nat, 0%nat).

(** The directories and the files of a Tree Model, its root not counted. *)
Fixpoint count_dirs (n : node) : nat :=
  match n with
  | File _ => 0
  | Dir d =>
      list_sum (map (fun kv => if is_dir kv.2 then S (count_dirs kv.2) else 0%nat) d)
  end.

Fixpoint count_files (n : node) : nat :=
  match n with
  | File _ => 0
  | Dir d =>
      list_sum (map (fun kv => if is_dir kv.2 then count_files kv.2 else 1%nat) d)
  end.

(** ** The console: [get_user_input], [debug_structure] and [create_example] *)

(** ['\n'.join(lines)] *)
Fixpoint join (sep : N) (lines : list str) : str :=
  match lines with
  | [] => []
  | [line] => line
  | line :: rest => line ++ sep :: join sep rest
  end.

(** The standard input is the list of the lines still to be read, each
    without its newline.  [input()] takes the first one; on an empty list
    it raises [EOFError], which is [None] here.  What is printed is not
    part of the model. *)
Definition input (stdin : list str) : option (str * list str) :=
  match stdin with
  | [] => None
  | line :: rest => Some (line, rest)
  end.

(** The loop of [get_user_input], started with the lines read so far: it
    stops at an empty line that follows an empty line, which it consumes
    and does not keep, or at the end of the input. *)
Fixpoint get_user_input_loop (stdin : list str) (lines : list str)
    : list str * list str :=
  match stdin with
  | [] => (lines, [])
  | line :: rest =>
      if bool_decide (line = []) && negb (bool_decide (lines = []))
         && bool_decide (list.last lines = Some [])
      then (lines, rest)
      else get_user_input_loop rest (lines ++ [line])
  end.

(** [if lines and lines[-1] == '': lines.pop()] *)
Definition pop_empty_line (lines : list str) : list str :=
  if negb (bool_decide (lines = [])) && bool_decide (list.last lines = Some [])
  then removelast lines else lines.

(** The text returned, and the standard input that is left. *)
Definition get_user_input (stdin : list str) : str * list str :=
  let '(lines, rest) := get_user_input_loop stdin [] in
  (join NEWLINE (pop_empty_line lines), rest).

Definition FOLDER_SIGN : N := 128193.
Definition PAGE_SIGN : N := 128196.

(** The lines that [debug_structure] prints for one item: the body of its
    loop, with the recursive call on the items of a nested mapping. *)
Fixpoint debug_entry (indent : nat) (name : str) (content : node) : list str :=
  match content with
  | Dir structure =>
      (concat (replicate indent (py "  ")) ++ [FOLDER_SIGN; SPACE] ++ name ++ [SLASH])
      :: flat_map (fun item => debug_entry (S indent) item.1 item.2) structure
  | File _ =>
      [concat (replicate indent (py "  ")) ++ [PAGE_SIGN; SPACE] ++ name]
  end.

Definition debug_structure (structure : list (str * node)) (indent : nat)
    : list str :=
  flat_map (fun item => debug_entry indent item.1 item.2) structure.

(** ** The program: [main] and the tree format of the block under [__main__] *)

(** What is raised there besides the exceptions of the parsers and of the
    filesystem. *)
Inductive exception : Type :=
  | Exn (e : exn)
  | EOFError
  | AttributeError.

(** The message that tells how a run went: no structure provided, nothing
    parsed, cancelled, the summary with its two counts, the success line
    of the tree format, or the error message of [main]. *)
Inductive report : Type :=
  | NoStructure
  | CouldNotParse
  | Cancelled
  | Created (folder_count file_count : nat)
  | CreatedTree
  | Error (e : exception).

(** A run returns after its report, leaves through [exit()] after it, or
    lets an exception out. *)
Inductive ending : Type :=
  | Returned (r : report)
  | Exited (r : report)
  | Uncaught (e : exception).

(** [overwrite.lower() == 'y']: the strings whose lower case is [y] are
    [y] and [Y]. *)
Definition lower_is_y (overwrite : str) : bool :=
  bool_decide (overwrite = py "y") || bool_decide (overwrite = py "Y").

(** [input().strip()] with the default name for a blank answer. *)
Definition folder_name (line : str) : str :=
  if bool_decide (strip line = []) then py "my_project" else strip line.

(** The block [if os.path.exists(main_folder): ...], which [main] and the
    tree format both have: the question is asked only for a folder that
    is there, and [shutil.rmtree], a parameter of the model, runs only on
    the answer [y]. *)
Inductive asked : Type :=
  | Proceed (stdin : list str) (s : fs)
  | Declined (stdin : list str)
  | Broke (e : exception) (stdin : list str) (s : fs).

Definition overwrite_existing (rmtree : str -> fs -> outcome)
    (main_folder : str) (stdin : list str) (s : fs) : asked :=
  if path_exists main_folder s then
    match input stdin with
    | None => Broke EOFError stdin s
    | Some (answer, stdin) =>
        if lower_is_y (strip answer) then
          match rmtree main_folder s with
          | Done s' => Proceed stdin s'
          | Failed e s' => Broke (Exn e) stdin s'
          end
        else Declined stdin
    end
  else Proceed stdin s.

(** [main()]: how it ends, the standard input that is left and the
    filesystem that is left.  Everything from the parsing on is inside
    [try], the two prompts before it are not. *)
Definition main (rmtree : str -> fs -> outcome) (stdin : list str) (s : fs)
    : ending * list str * fs :=
  let '(folder_structure_text, stdin) := get_user_input stdin in
  if bool_decide (strip folder_structure_text = []) then
    (Returned NoStructure, stdin, s)
  else
    match input stdin with
    | None => (Uncaught EOFError, stdin, s)
    | Some (line, stdin) =>
        let main_folder := folder_name line in
        match parse_folder_structure folder_structure_text with
        | Raise e => (Returned (Error (Exn e)), stdin, s)
        | Ok (File c) =>
            if bool_decide (c = []) then (Returned CouldNotParse, stdin, s)
            else (Returned (Error AttributeError), stdin, s)
        | Ok (Dir structure) =>
            if bool_decide (structure = []) then
              (Returned CouldNotParse, stdin, s)
            else
              match overwrite_existing rmtree main_folder stdin s with
              | Broke e stdin s => (Returned (Error e), stdin, s)
              | Declined stdin => (Returned Cancelled, stdin, s)
              | Proceed stdin s =>
                  match create_structure main_folder structure s with
                  | Failed e s => (Returned (Error (Exn e)), stdin, s)
                  | Done s =>
                      let '(folder_count, file_count) :=
                        summary_counts main_folder s in
                      (Returned (Created folder_count file_count), stdin, s)
                  end
              end
        end
    end.

(** The tree format of the block under [__main__] (its [else] branch):
    the Indent Parser, no test for an empty model, and nothing inside
    [try]. *)
Definition tree_format (rmtree : str -> fs -> outcome) (stdin : list str)
    (s : fs) : ending * list str * fs :=
  let '(folder_structure_text, stdin) := get_user_input stdin in
  if bool_decide (strip folder_structure_text = []) then
    (Exited NoStructure, stdin, s)
  else
    match input stdin with
    | None => (Uncaught EOFError, stdin, s)
    | Some (line, stdin) =>
        let main_folder := folder_name line in
        match parse_tree_structure folder_structure_text with
        | Raise e => (Uncaught (Exn e), stdin, s)
        | Ok (File c) => (Uncaught AttributeError, stdin, s)
        | Ok (Dir structure) =>
            match overwrite_existing rmtree main_folder stdin s with
            | Broke e stdin s => (Uncaught e, stdin, s)
            | Declined stdin => (Exited Cancelled, stdin, s)
            | Proceed stdin s =>
                match create_structure main_folder structure s with
                | Failed e s => (Uncaught (Exn e), stdin, s)
                | Done s => (Returned CreatedTree, stdin, s)
                end
            end
        end
    end.

(** The text that [create_example] shows as the structure to paste. *)
Definition example_structure : str :=
  join NEWLINE
    [py "project/";
     [TEE; DASH; DASH] ++ py " src/";
     [VBAR] ++ py "   " ++ [TEE; DASH; DASH] ++ py " main.py";
     [VBAR] ++ py "   " ++ [TEE; DASH; DASH] ++ py " utils/";
     [VBAR] ++ py "   " ++ [VBAR] ++ py "   " ++ [TEE; DASH; DASH] ++ py " __init__.py";
     [VBAR] ++ py "   " ++ [VBAR] ++ py "   " ++ [CORNER; DASH; DASH] ++ py " helpers.py";
     [VBAR] ++ py "   " ++ [CORNER; DASH; DASH] ++ py " config/";
     [TEE; DASH; DASH] ++ py " tests/";
     [VBAR] ++ py "   " ++ [CORNER; DASH; DASH] ++ py " test_main.py";
     [TEE; DASH; DASH] ++ py " docs/";
     [VBAR] ++ py "   " ++ [CORNER; DASH; DASH] ++ py " README.md";
     [CORNER; DASH; DASH] ++ py " requirements.txt"].

(** ** What the properties are stated with *)

(** The stack holds the root at the bottom, one name per mapping, and
    addresses of the store only. *)
Definition tree_inv (st : tstate) : Prop :=
  (exists rest, stack st = 0%nat :: rest)
  /\ length (path_stack st) = length (stack st)
  /\ Forall (fun a => (a < length (heap st))%nat) (stack st).

(** The key under which a line of the Indent Parser stores its entry. *)
Definition tree_key (clean_line : str) : str :=
  if is_directory clean_line then rstrip_char SLASH clean_line else clean_line.

(** Following the words of the specification: only the leading run of
    glyphs and of whitespace is stripped, and the rest is trimmed. *)
Definition spec_clean_line (line : str) : str :=
  strip (drop_while (fun c => is_glyph c || isspace c) line).

(** The characters that are neither glyphs nor whitespace. *)
Definition solid (c : N) : bool := negb (is_glyph c) && negb (isspace c).

(** [p] holds of every key of every mapping of a tree. *)
Fixpoint all_keys (p : str -> bool) (n : node) : bool :=
  match n with
  | File _ => true
  | Dir d => forallb (fun kv => p kv.1 && all_keys p kv.2) d
  end.

(** A name as the data model wants it: not empty and without a slash. *)
Definition valid_name (k : str) : bool :=
  negb (bool_decide (k = [])) && negb (contains SLASH k).

Definition no_slash (k : str) : bool := negb (contains SLASH k).
Definition no_final_slash (k : str) : bool := negb (endswith SLASH k).

(** The keys of the Indent Parser, in the store. *)
Definition heap_keys (p : str -> bool) (h : list (list (str * hval))) : Prop :=
  Forall (fun d => Forall (fun kv => p kv.1 = true) d) h.

(** A name that path resolution takes as the name of an entry: not empty,
    without a slash, and neither [.] nor [..]. *)
Definition plain_name (k : str) : bool :=
  negb (bool_decide (k = [])) && negb (contains SLASH k)
  && negb (bool_decide (k = py ".")) && negb (bool_decide (k = py "..")).

(** The keys of every mapping are pairwise different, as in a [dict]. *)
Fixpoint unique_keys (n : node) : bool :=
  match n with
  | File _ => true
  | Dir d => bool_decide (NoDup d.*1) && forallb (fun kv => unique_keys kv.2) d
  end.

(** A relative path whose components are the plain names [cs]. *)
Definition plain_path (bp : str) (cs : list str) : Prop :=
  startswith [SLASH] bp = false
  /\ (exists c, list.last bp = Some c /\ c <> SLASH)
  /\ components bp = cs
  /\ Forall (fun k => plain_name k = true) cs.

(** [bp] is a plain path from the current directory to the directory at
    [cs], whose entries are [d]. *)
Definition at_dir (s : fs) (bp : str) (cs : list str) (d : list (str * node))
    : Prop :=
  cs <> [] /\ plain_path bp cs
  /\ get_path (cwd s ++ cs) (root s) = Some (Dir d).

(** The filesystem in which the directory at [l] has the entries [d]. *)
Definition with_dir (s : fs) (l : list str) (d : list (str * node)) : fs :=
  Fs (cwd s) (alter_path (fun _ => Dir d) l (root s)).

(** Into a directory that is there and has none of the names: the items
    are added to it, in their order, as the model has them. *)
Definition fills_directory (structure : list (str * node)) : Prop :=
  forall s bp cs d,
    at_dir s bp cs d ->
    all_keys plain_name (Dir structure) = true ->
    unique_keys (Dir structure) = true ->
    (forall k, k ∈ structure.*1 -> dict_get k d = None) ->
    create_structure bp structure s
    = Done (with_dir s (cwd s ++ cs) (d ++ structure)).

(** Into a directory that already holds the items as the model has them:
    nothing changes. *)
Definition keeps_directory (structure : list (str * node)) : Prop :=
  forall s bp cs d,
    at_dir s bp cs d ->
    all_keys plain_name (Dir structure) = true ->
    unique_keys (Dir structure) = true ->
    (forall k v, (k, v) ∈ structure -> dict_get k d = Some v) ->
    create_structure bp structure s = Done s.

(** The filesystem once the directory [t] is made in the current one. *)
Definition with_target (s : fs) (t : str) : fs :=
  Fs (cwd s) (alter_path (dir_add t (Dir [])) (cwd s) (root s)).

(** A current directory [/home] with nothing in it, and the model of the
    end-to-end scenario. *)
Definition home : fs := Fs [py "home"] (Dir [(py "home", Dir [])]).

Definition demo_tree : list (str * node) :=
  [(py "src", Dir [(py "main.py", File []); (py "utils", Dir [])]);
   (py "README.md", File [])].

(** A mapping of the store only holds addresses of mappings made after it. *)
Definition heap_wf (h : list (list (str * hval))) : Prop :=
  forall a d k b, h !! a = Some d -> (k, HRef b) ∈ d ->
    (a < b < length h)%nat.

(** A glyph or a whitespace character: what the parsers take as decoration
    of a line. *)
Definition decoration (c : N) : bool := is_glyph c || isspace c.

(** What the four [replace] calls do to one character. *)
Definition blank_glyph (c : N) : N := if is_glyph c then SPACE else c.

(** The line cut at its glyphs: the text before the first glyph, and the
    text after each glyph up to the next one. *)
Fixpoint cut_at_glyphs (line : str) : str * list str :=
  match line with
  | [] => ([], [])
  | c :: r =>
      let '(first, rest) := cut_at_glyphs r in
      if is_glyph c then ([], first :: rest) else (c :: first, rest)
  end.

(** Every glyph deleted together with the whitespace that follows it, and
    everything else kept: the text before the first glyph, then the text
    after each glyph without its leading whitespace. *)
Definition without_glyph_runs (line : str) : str :=
  let '(first, rest) := cut_at_glyphs line in
  first ++ concat (map lstrip rest).

(** [p] holds of every entry, name and value, of every mapping of a tree. *)
Fixpoint all_entries (p : str -> node -> bool) (n : node) : bool :=
  match n with
  | File _ => true
  | Dir d => forallb (fun kv => p kv.1 kv.2 && all_entries p kv.2) d
  end.

(** A file holds the empty string. *)
Definition empty_file (k : str) (v : node) : bool :=
  match v with File c => bool_decide (c = []) | Dir _ => true end.

(** The name of a file has a dot. *)
Definition dotted_file (k : str) (v : node) : bool :=
  match v with File _ => contains DOT k | Dir _ => true end.

(** The entry is a mapping. *)
Definition only_dir (k : str) (v : node) : bool := is_dir v.

(** The entries of the store of the Indent Parser. *)
Definition heap_entries (P : str -> hval -> Prop)
    (h : list (list (str * hval))) : Prop :=
  Forall (fun d => Forall (fun kv => P kv.1 kv.2) d) h.

(** Some empty line is followed at once by an empty line. *)
Fixpoint adjacent_empty (lines : list str) : bool :=
  match lines with
  | [] => false
  | line :: rest =>
      bool_decide (line = []) && bool_decide (head rest = Some [])
      || adjacent_empty rest
  end.

(** * Properties *)

(** ** Mappings *)

Section DictFacts.
Context {K V : Type} `{EqDecision K}.
Implicit Types (d : list (K * V)) (k : K) (v : V).

Lemma dict_get_set_eq k v d : dict_get k (dict_set k v d) = Some v.
Proof.
  induction d as [|[k' v'] d IH]; simpl.
  - by rewrite bool_decide_true.
  - case_bool_decide as E; simpl.
    + by rewrite bool_decide_true.
    + by rewrite bool_decide_false.
Qed.

Lemma dict_get_set_ne k k' v d :
  k <> k' -> dict_get k' (dict_set k v d) = dict_get k' d.
Proof.
  intros Hne. induction d as [|[k0 v0] d IH]; simpl.
  - by rewrite bool_decide_false.
  - case_bool_decide as E; simpl.
    + subst k0. by rewrite !bool_decide_false.
    + case_bool_decide; [done | apply IH].
Qed.

Lemma dict_set_same k v d : dict_get k d = Some v -> dict_set k v d = d.
Proof.
  induction d as [|[k0 v0] d IH]; simpl; [done|].
  case_bool_decide as E.
  - intros [= ->]. by subst.
  - intros H. by rewrite IH.
Qed.

End DictFacts.

(** ** The error monad *)

Lemma bind_Ok {A B} (m : res A) (f : A -> res B) (b : B) :
  m ≫= f = Ok b <-> exists a, m = Ok a /\ f a = Ok b.
Proof.
  destruct m as [a|e]; simpl; split.
  - intros H. by exists a.
  - by intros (a' & [= <-] & H).
  - done.
  - by intros (a' & [=] & _).
Qed.

Ltac inv_bind H :=
  repeat match type of H with
  | _ ≫= _ = Ok _ =>
      let a := fresh "a" in
      let Ha := fresh "Ha" in
      apply bind_Ok in H as (a & Ha & H)
  end.

(** ** The Path Parser *)

Lemma walk_last file part current :
  walk file [part] current =
    if file then py_setitem current part (File [])
    else if negb (py_contains part current)
         then py_setitem current part (Dir [])
         else Ok current.
Proof. reflexivity. Qed.

Lemma walk_cons file part p2 rest current :
  walk file (part :: p2 :: rest) current =
    (if negb (py_contains part current)
     then py_setitem current part (Dir [])
     else Ok current) ≫= fun current1 =>
    py_getitem current1 part ≫= fun child =>
    walk file (p2 :: rest) child ≫= fun child' =>
    py_setitem current1 part child'.
Proof. reflexivity. Qed.

(** An intermediate segment that is reached as a string raises. *)
Lemma walk_through_file file part p2 rest s :
  walk file (part :: p2 :: rest) (File s) = Raise TypeError.
Proof. rewrite walk_cons. simpl. by destruct (substring_in part s). Qed.

Lemma get_path_cons_dir k r d :
  get_path (k :: r) (Dir d) = dict_get k d ≫= get_path r.
Proof. reflexivity. Qed.

Lemma get_path_child k r d v :
  dict_get k d = Some v -> get_path (k :: r) (Dir d) = get_path r v.
Proof. intros H. by rewrite get_path_cons_dir, H. Qed.

Lemma get_path_no_child k r d :
  dict_get k d = None -> get_path (k :: r) (Dir d) = None.
Proof. intros H. by rewrite get_path_cons_dir, H. Qed.

(** The first step of the walk on a mapping: the child that the walk goes
    into, and whether it was there before. *)
Lemma walk_cons_dir file part p2 rest d current' :
  walk file (part :: p2 :: rest) (Dir d) = Ok current' ->
  exists child child',
    (dict_get part d = Some child \/ (dict_get part d = None /\ child = Dir []))
    /\ walk file (p2 :: rest) child = Ok child'
    /\ current' = Dir (dict_set part child' (dict_set part child d)).
Proof.
  rewrite walk_cons. simpl. unfold dict_mem.
  destruct (dict_get part d) as [child|] eqn:Hget; simpl.
  - rewrite Hget. simpl. intros H. inv_bind H. injection H as <-.
    exists child, a. rewrite (dict_set_same part child d Hget). auto.
  - rewrite dict_get_set_eq. simpl. intros H. inv_bind H. injection H as <-.
    exists (Dir []), a. auto.
Qed.

Lemma dict_set_set {K V} `{EqDecision K} (k : K) (v v' : V) d :
  dict_set k v' (dict_set k v d) = dict_set k v' d.
Proof.
  induction d as [|[k0 v0] d IH]; simpl.
  - by rewrite bool_decide_true.
  - case_bool_decide; simpl.
    + by rewrite bool_decide_true.
    + rewrite bool_decide_false by done. by rewrite IH.
Qed.

Lemma walk_file_sets parts :
  parts <> [] -> forall current current',
  walk true parts current = Ok current' ->
  get_path parts current' = Some (File []).
Proof.
  induction parts as [|part rest IH]; [done|]. intros _ current current'.
  destruct rest as [|p2 rest].
  - rewrite walk_last. destruct current as [s|d]; simpl; [done|].
    intros [= <-]. simpl. by rewrite dict_get_set_eq.
  - destruct current as [s|d]; [by rewrite walk_through_file|].
    intros (child & child' & _ & Hw & ->)%walk_cons_dir.
    rewrite (get_path_child _ _ _ child') by apply dict_get_set_eq.
    by apply (IH ltac:(done) child).
Qed.

Lemma get_path_empty_dir path :
  path <> [] -> get_path path (Dir []) = None.
Proof. by destruct path. Qed.

Lemma walk_dir_keeps parts :
  parts <> [] -> forall current current',
  walk false parts current = Ok current' ->
  match get_path parts current with
  | Some _ => current' = current
  | None =>
      get_path parts current' = Some (Dir [])
      \/ (current' = current
          /\ exists s, get_path (removelast parts) current = Some (File s))
  end.
Proof.
  induction parts as [|part rest IH]; [done|]. intros _ current current'.
  destruct rest as [|p2 rest].
  - rewrite walk_last. destruct current as [s|d]; simpl.
    + destruct (substring_in part s); simpl; [|done].
      intros [= <-]. right. eauto.
    + unfold dict_mem. destruct (dict_get part d) eqn:Hget; simpl.
      * by intros [= <-].
      * intros [= <-]. left. simpl. by rewrite dict_get_set_eq.
  - destruct current as [s|d]; [by rewrite walk_through_file|].
    intros (child & child' & Hchild & Hw & ->)%walk_cons_dir.
    rewrite dict_set_set.
    specialize (IH ltac:(done) child child' Hw).
    rewrite (get_path_child part _ (dict_set part child' d) child')
      by apply dict_get_set_eq.
    change (removelast (part :: p2 :: rest))
      with (part :: removelast (p2 :: rest)).
    destruct Hchild as [Hget | [Hget ->]].
    + rewrite !(get_path_child _ _ _ child) by done.
      destruct (get_path (p2 :: rest) child) eqn:Hp.
      * subst child'. by rewrite dict_set_same.
      * destruct IH as [IH | [-> IH]]; [by left|].
        right. by rewrite dict_set_same.
    + rewrite get_path_no_child by done.
      rewrite get_path_empty_dir in IH by done.
      destruct IH as [IH | [_ [s IH]]]; [by left|].
      destruct (removelast (p2 :: rest)); simpl in IH; done.
Qed.

Lemma split_nonempty sep s : split sep s <> [].
Proof.
  destruct s as [|c r]; simpl; [done|].
  destruct (c =? sep); [done|]. by destruct (split sep r).
Qed.

Lemma add_entry_walk clean_line root :
  add_entry clean_line root = walk (is_file clean_line) (entry_path clean_line) root.
Proof.
  unfold add_entry, entry_path.
  destruct (contains SLASH clean_line); [done|]. by rewrite walk_last.
Qed.

Lemma entry_path_nonempty clean_line : entry_path clean_line <> [].
Proof.
  unfold entry_path. destruct (contains SLASH clean_line); [|done].
  apply split_nonempty.
Qed.

(** A later line that goes through a name recorded as a file raises, unless
    all it adds below that name is one empty directory segment. *)
Lemma walk_over_file file part p2 rest d :
  dict_get part d = Some (File []) ->
  file = true \/ p2 <> [] \/ rest <> [] ->
  walk file (part :: p2 :: rest) (Dir d) = Raise TypeError.
Proof.
  intros Hget Hcase. rewrite walk_cons. cbn -[walk]. unfold dict_mem.
  rewrite Hget. cbn -[walk]. rewrite Hget. cbn -[walk].
  destruct rest as [|p3 rest].
  - rewrite walk_last. destruct file; [done|].
    destruct p2; [|done]. by destruct Hcase as [?|[?|?]].
  - by rewrite walk_through_file.
Qed.

(** C1 (the code raises where the claim says it cannot): a line whose first
    segment was recorded as a file by an earlier line makes
    [parse_folder_structure] raise [TypeError] instead of returning the
    root mapping. *)
Theorem path_parser_raises_on_file_segment :
  parse_folder_structure (py "a.b" ++ [NEWLINE] ++ py "a.b/c") = Raise TypeError.
Proof. reflexivity. Qed.

(** C2: for every line that the Path Parser processes, a last segment
    classified as a file is set to the empty string whatever was there
    (file or directory), and one classified as a directory leaves the
    whole tree as it was when the name is present, an empty mapping being
    created only when it is absent; the root-level line without a slash
    follows the same policy.  (Where the walk reached a string and the
    last segment is empty, nothing is created.) *)
Theorem path_parser_last_segment_asymmetric clean_line root root' :
  add_entry clean_line root = Ok root' ->
  if is_file clean_line
  then get_path (entry_path clean_line) root' = Some (File [])
  else match get_path (entry_path clean_line) root with
       | Some _ => root' = root
       | None =>
           get_path (entry_path clean_line) root' = Some (Dir [])
           \/ (root' = root
               /\ exists s, get_path (removelast (entry_path clean_line)) root
                            = Some (File s))
       end.
Proof.
  rewrite add_entry_walk. intros Hw.
  pose proof (entry_path_nonempty clean_line) as Hne.
  destruct (is_file clean_line).
  - by apply (walk_file_sets _ Hne root).
  - by apply (walk_dir_keeps _ Hne root).
Qed.

Lemma path_parser_last_segment_asymmetric_witness :
  let root := Dir [(py "src", Dir [(py "main.py", Dir [(py "x", File [])])])] in
  let root' := Dir [(py "src", Dir [(py "main.py", File [])])] in
  add_entry (py "src/main.py") root = Ok root'
  /\ get_path [py "src"; py "main.py"] root' = Some (File []).
Proof.
  split; [reflexivity|].
  exact (path_parser_last_segment_asymmetric (py "src/main.py")
           (Dir [(py "src", Dir [(py "main.py", Dir [(py "x", File [])])])])
           _ eq_refl).
Defined.

(** C3 (the code misses one direction): in the Path Parser a directory
    declared at a name recorded as a file raises [TypeError] and replaces
    nothing, whereas the Indent Parser replaces the file by the directory,
    and the Path Parser itself replaces a directory by a later file. *)
Theorem path_parser_directory_over_file_raises :
  parse_folder_structure (py "notes.txt" ++ [NEWLINE] ++ py "notes.txt/2024")
    = Raise TypeError
  /\ parse_tree_structure (py "notes.txt" ++ [NEWLINE] ++ py "notes.txt/")
    = Ok (Dir [(py "notes.txt", Dir [])])
  /\ parse_folder_structure (py "lib.d/x" ++ [NEWLINE] ++ py "lib.d")
    = Ok (Dir [(py "lib.d", File [])]).
Proof. repeat split; reflexivity. Qed.

(** ** Trimming *)

Lemma drop_while_nil p s : drop_while p s = [] <-> forallb p s = true.
Proof.
  induction s as [|c r IH]; simpl; [done|].
  destruct (p c); simpl; [done|]. split; done.
Qed.

Lemma drop_while_all p s : forallb p s = true -> drop_while p (rev s) = [].
Proof.
  intros H. apply drop_while_nil. rewrite forallb_forall in *.
  intros x Hx. apply H. by apply in_rev.
Qed.

Lemma strip_nil s : strip s = [] <-> forallb isspace s = true.
Proof.
  unfold strip, lstrip, rstrip. rewrite drop_while_nil. split.
  - intros H. destruct (drop_while isspace (rev s)) as [|c r] eqn:E.
    + apply drop_while_nil in E. rewrite forallb_forall in *.
      intros x Hx. apply E. by apply in_rev in Hx.
    + assert (isspace c = false) as Hc.
      { clear H. induction (rev s) as [|a l IH]; simpl in E; [done|].
        destruct (isspace a) eqn:Ha; [by apply IH|]. by injection E as -> _. }
      rewrite forallb_forall in H. specialize (H c).
      rewrite Hc in H. discriminate H. apply in_rev. rewrite rev_involutive.
      by left.
  - intros H. by rewrite drop_while_all.
Qed.

Lemma re_sub_keeps_spaces b s :
  forallb isspace s = true -> forallb isspace (re_sub b s) = true.
Proof.
  revert b. induction s as [|c r IH]; intros b; simpl; [done|].
  intros [Hc Hr]%andb_prop.
  destruct (is_glyph c); [by apply IH|].
  destruct (b && isspace c); [by apply IH|].
  simpl. rewrite Hc. by apply IH.
Qed.

(** A line with a non-empty clean text is not blank. *)
Lemma clean_line_not_blank line :
  tree_clean_line line <> [] -> strip line <> [].
Proof.
  intros Hc Hs. apply Hc. apply strip_nil, re_sub_keeps_spaces.
  by apply strip_nil.
Qed.

(** ** The Indent Parser *)

Lemma tree_inv_init : tree_inv tree_init.
Proof.
  repeat split; simpl; [by exists [] | repeat constructor].
Qed.

Lemma scan_indent_ge line indent : (indent <= scan_indent line indent)%Z.
Proof.
  revert indent. induction line as [|c r IH]; intros indent; simpl; [lia|].
  destruct (_ || _); [|lia]. specialize (IH (indent + 1)%Z). lia.
Qed.

Lemma scan_indent_nonneg line : (0 <= scan_indent line 0)%Z.
Proof. apply scan_indent_ge. Qed.

Lemma list_pop_cons {A} (l : list A) :
  l <> [] -> list_pop l = Ok (take (length l - 1) l).
Proof.
  destruct l as [|x l]; [done|]. intros _. unfold list_pop.
  rewrite removelast_firstn_len. simpl. by rewrite Nat.sub_0_r.
Qed.

(** The loop stops, leaves the first [indent + 1] entries of both stacks
    and raises nothing, as long as [indent] is not negative. *)
Lemma pop_too_deep_take fuel indent st :
  (0 <= indent)%Z ->
  length (path_stack st) = length (stack st) ->
  (length (stack st) <= fuel)%nat ->
  pop_too_deep fuel indent st =
    Ok (TState (heap st)
          (take (Z.to_nat indent + 1) (stack st))
          (take (Z.to_nat indent + 1) (path_stack st))).
Proof.
  intros Hind. revert st.
  induction fuel as [|fuel IH]; intros [h stk pstk]; simpl; intros Hlen Hfuel.
  - destruct stk; [|simpl in Hfuel; lia]. destruct pstk; [|done].
    rewrite Z.gtb_ltb. destruct (Z.ltb_spec (indent + 1) (Z.of_nat (length (@nil nat)))) as [H|H];
      simpl in *; [lia | by rewrite !take_nil].
  - rewrite Z.gtb_ltb. destruct (Z.ltb_spec (indent + 1) (Z.of_nat (length stk))) as [H|H].
    + rewrite !list_pop_cons by (intros ->; simpl in *; lia). simpl.
      rewrite IH; simpl; rewrite ?length_take; [|lia|lia].
      rewrite !take_take. do 3 f_equal; lia.
    + rewrite !take_ge by lia. done.
Qed.

Lemma take_head {A} n (x : A) l : take (S n) (x :: l) = x :: take n l.
Proof. reflexivity. Qed.

Lemma pop_too_deep_inv st indent :
  (0 <= indent)%Z -> tree_inv st ->
  exists st', pop_too_deep (length (stack st)) indent st = Ok st'
    /\ tree_inv st' /\ heap st' = heap st
    /\ stack st' = take (Z.to_nat indent + 1) (stack st).
Proof.
  intros Hind ([rest Hstk] & Hlen & Haddr).
  eexists. split; [by apply pop_too_deep_take|].
  split; [|done]. unfold tree_inv. simpl. repeat split.
  - rewrite Hstk. replace (Z.to_nat indent + 1)%nat with (S (Z.to_nat indent)) by lia.
    rewrite take_head. by eexists.
  - rewrite !length_take. lia.
  - by apply Forall_take.
Qed.

Lemma tree_inv_top st :
  tree_inv st ->
  exists top, list.last (stack st) = Some top /\ (top < length (heap st))%nat.
Proof.
  intros ([rest Hstk] & _ & Haddr).
  destruct (list.last (stack st)) as [top|] eqn:E.
  - exists top. split; [done|].
    rewrite Forall_forall in Haddr. by apply Haddr, last_Some_elem_of.
  - rewrite Hstk, last_cons in E. by destruct (list.last rest).
Qed.

Lemma heap_set_lookup a k v h d :
  h !! a = Some d -> heap_set a k v h !! a ≫= dict_get k = Some v.
Proof.
  intros H. unfold heap_set. rewrite list_lookup_alter_eq, H. simpl.
  apply dict_get_set_eq.
Qed.

(** What [tree_entry] does to a state whose top of stack is [top]. *)
Lemma tree_entry_spec clean_line st top :
  list.last (stack st) = Some top -> (top < length (heap st))%nat ->
  exists st', tree_entry clean_line st = Ok st' /\
    if is_directory clean_line then
      let name := rstrip_char SLASH clean_line in
      let fresh := length (heap st) in
      heap st' = heap_set top name (HRef fresh) (heap st ++ [[]])
      /\ heap st' !! fresh = Some []
      /\ heap st' !! top ≫= dict_get name = Some (HRef fresh)
      /\ stack st' = stack st ++ [fresh]
      /\ path_stack st' = path_stack st ++ [name]
    else
      heap st' = heap_set top clean_line (HStr []) (heap st)
      /\ heap st' !! top ≫= dict_get clean_line = Some (HStr [])
      /\ stack st' = stack st
      /\ path_stack st' = path_stack st.
Proof.
  intros Htop Hlt. unfold tree_entry, list_top. rewrite Htop. simpl.
  destruct (lookup_lt_is_Some_2 (heap st) top Hlt) as [d Hd].
  destruct (is_directory clean_line); eexists; (split; [reflexivity|]); simpl.
  - repeat split.
    + unfold heap_set. rewrite list_lookup_alter_ne by lia.
      by rewrite list_lookup_middle.
    + apply (heap_set_lookup _ _ _ _ d). by apply lookup_app_l_Some.
  - repeat split. by apply (heap_set_lookup _ _ _ _ d).
Qed.

Lemma tree_entry_inv clean_line st :
  tree_inv st -> exists st', tree_entry clean_line st = Ok st' /\ tree_inv st'.
Proof.
  intros Hinv. destruct (tree_inv_top st Hinv) as (top & Htop & Hlt).
  destruct (tree_entry_spec clean_line st top Htop Hlt) as (st' & Hst' & Hspec).
  exists st'. split; [done|].
  destruct Hinv as ([rest Hstk] & Hlen & Haddr). unfold tree_inv.
  destruct (is_directory clean_line).
  - destruct Hspec as (-> & _ & _ & -> & ->). repeat split.
    + rewrite Hstk. by eexists.
    + rewrite !length_app. simpl. lia.
    + unfold heap_set. rewrite length_alter, length_app. simpl.
      apply Forall_app. split.
      * eapply Forall_impl; [done|]. simpl. lia.
      * repeat constructor. lia.
  - destruct Hspec as (-> & _ & -> & ->). repeat split; [by eexists|done|].
    unfold heap_set. by rewrite length_alter.
Qed.

Lemma tree_line_inv st line :
  tree_inv st -> exists st', tree_line st line = Ok st' /\ tree_inv st'.
Proof.
  intros Hinv. unfold tree_line.
  destruct (strip line); [by exists st|].
  destruct (tree_clean_line line) as [|c cl]; [by exists st|].
  destruct (pop_too_deep_inv st _ (scan_indent_nonneg line) Hinv)
    as (st1 & -> & Hinv1 & _). simpl.
  by apply tree_entry_inv.
Qed.

Lemma tree_lines_inv lines st :
  tree_inv st -> exists st', tree_lines lines st = Ok st' /\ tree_inv st'.
Proof.
  revert st. induction lines as [|line rest IH]; intros st Hinv; simpl.
  - by exists st.
  - destruct (tree_line_inv st line Hinv) as (st1 & -> & Hinv1). simpl.
    by apply IH.
Qed.

(** C4: a line of the Indent Parser that is not skipped cuts the stack back
    and then, classified as a directory, stores a new empty mapping (one
    that was no mapping of the store before, so nothing of an earlier
    mapping of that name is kept) at its name without trailing slashes
    under the mapping on top of the stack, and pushes it; classified as a
    file, it stores the empty string at its name under the mapping on top
    of the stack and pushes nothing. *)
Theorem indent_parser_line_effect st line :
  tree_inv st -> tree_clean_line line <> [] ->
  exists st1 top st',
    pop_too_deep (length (stack st)) (scan_indent line 0) st = Ok st1
    /\ list.last (stack st1) = Some top
    /\ tree_line st line = Ok st'
    /\ let clean_line := tree_clean_line line in
       if is_directory clean_line then
         let name := rstrip_char SLASH clean_line in
         let fresh := length (heap st1) in
         heap st1 !! fresh = None
         /\ heap st' !! fresh = Some []
         /\ (forall n, reify n (heap st') fresh = Dir [])
         /\ heap st' !! top ≫= dict_get name = Some (HRef fresh)
         /\ stack st' = stack st1 ++ [fresh]
         /\ path_stack st' = path_stack st1 ++ [name]
       else
         heap st' !! top ≫= dict_get clean_line = Some (HStr [])
         /\ stack st' = stack st1
         /\ path_stack st' = path_stack st1
         /\ length (heap st') = length (heap st1).
Proof.
  intros Hinv Hclean.
  destruct (pop_too_deep_inv st _ (scan_indent_nonneg line) Hinv)
    as (st1 & Hpop & Hinv1 & _).
  destruct (tree_inv_top st1 Hinv1) as (top & Htop & Hlt).
  destruct (tree_entry_spec (tree_clean_line line) st1 top Htop Hlt)
    as (st' & Hst' & Hspec).
  exists st1, top, st'. repeat split; try done.
  - unfold tree_line.
    destruct (strip line) eqn:Hs; [by apply clean_line_not_blank in Hclean|].
    destruct (tree_clean_line line); [done|]. by rewrite Hpop.
  - simpl. destruct (is_directory (tree_clean_line line)).
    + destruct Hspec as (Hheap & Hfresh & Hname & Hstk & Hpath).
      repeat split; try done.
      * by apply lookup_ge_None_2.
      * intros [|n]; simpl; [done|]. by rewrite Hfresh.
    + destruct Hspec as (Hheap & Hname & Hstk & Hpath).
      repeat split; try done.
      rewrite Hheap. unfold heap_set. by rewrite length_alter.
Qed.

Lemma indent_parser_line_effect_witness :
  tree_inv tree_init /\ tree_clean_line (py "src/") <> [] /\
  exists st', tree_line tree_init (py "src/") = Ok st'
    /\ heap st' !! 0%nat ≫= dict_get (py "src") = Some (HRef 1)
    /\ stack st' = [0; 1]%nat.
Proof.
  split; [exact tree_inv_init|]. split; [discriminate|].
  destruct (indent_parser_line_effect tree_init (py "src/") tree_inv_init
              ltac:(discriminate))
    as (st1 & top & st' & Hpop & Htop & Hline & Heff).
  injection Hpop as <-. injection Htop as <-.
  vm_compute in Heff. destruct Heff as (_ & _ & _ & Hname & Hstk & _).
  exists st'. by repeat split.
Defined.

(** A directory line that comes back to a name drops what the earlier
    mapping of that name held. *)
Example indent_parser_revisit_loses_children :
  parse_tree_structure (py "a/" ++ [NEWLINE] ++ py " b.txt" ++ [NEWLINE] ++ py "a/")
  = Ok (Dir [(py "a", Dir [])]).
Proof. reflexivity. Qed.

Lemma tree_lines_app lines1 lines2 st :
  tree_lines (lines1 ++ lines2) st = tree_lines lines1 st ≫= tree_lines lines2.
Proof.
  revert st. induction lines1 as [|line rest IH]; intros st; simpl; [done|].
  destruct (tree_line st line); simpl; [apply IH | done].
Qed.

(** C5: on every input text the Indent Parser raises nothing; the scanned
    indentation is never negative; after any number of lines the stack
    still has the root mapping (address 0, made before the loop) at its
    bottom, and from such a state the pop loop of any line stops on a
    prefix of the stack that still starts with the root; the value
    returned is that root mapping. *)
Theorem indent_parser_total text :
  (forall line, (0 <= scan_indent line 0)%Z)
  /\ (forall n, exists st rest,
        tree_lines (take n (split NEWLINE (strip text))) tree_init = Ok st
        /\ stack st = 0%nat :: rest
        /\ forall line, exists st1 rest1,
             pop_too_deep (length (stack st)) (scan_indent line 0) st = Ok st1
             /\ stack st1 = 0%nat :: rest1
             /\ stack st1 `prefix_of` stack st)
  /\ exists st,
       parse_tree_state text = Ok st
       /\ parse_tree_structure text
          = Ok (reify (length (heap st)) (heap st) 0%nat).
Proof.
  split; [apply scan_indent_nonneg|]. split.
  - intros n.
    destruct (tree_lines_inv (take n (split NEWLINE (strip text))) tree_init
                tree_inv_init) as (st & Hst & Hinv).
    pose proof Hinv as ([rest Hstk] & _).
    exists st, rest. repeat split; [done..|]. intros line.
    destruct (pop_too_deep_inv st _ (scan_indent_nonneg line) Hinv)
      as (st1 & Hpop & ([rest1 Hstk1] & _) & _ & Htake).
    exists st1, rest1. repeat split; [done..|].
    rewrite Htake. apply prefix_take.
  - destruct (tree_lines_inv (split NEWLINE (strip text)) tree_init
                tree_inv_init) as (st & Hst & ([rest Hstk] & _)).
    exists st. split; [done|].
    unfold parse_tree_structure, parse_tree_state. rewrite Hst. simpl.
    by rewrite Hstk.
Qed.

Lemma pop_too_deep_stop fuel indent st :
  (Z.of_nat (length (stack st)) <= indent + 1)%Z ->
  pop_too_deep fuel indent st = Ok st.
Proof.
  intros H. destruct fuel; simpl; rewrite Z.gtb_ltb;
    by destruct (Z.ltb_spec (indent + 1) (Z.of_nat (length (stack st)))); [lia|].
Qed.

Lemma tree_line_no_pop st line :
  tree_clean_line line <> [] ->
  (Z.of_nat (length (stack st)) <= scan_indent line 0 + 1)%Z ->
  tree_line st line = tree_entry (tree_clean_line line) st.
Proof.
  intros Hclean Hdepth. unfold tree_line.
  destruct (strip line) eqn:Hs; [by apply clean_line_not_blank in Hclean|].
  destruct (tree_clean_line line); [done|].
  by rewrite pop_too_deep_stop.
Qed.

Ltac run_line :=
  rewrite tree_line_no_pop by (simpl; first [lia | done]);
  unfold tree_entry; simpl;
  repeat match goal with H : is_directory _ = _ |- _ => rewrite !H end;
  simpl.

Lemma tree_line_skip st line :
  tree_clean_line line = [] -> tree_line st line = Ok st.
Proof.
  intros H. unfold tree_line. rewrite H. by destruct (strip line).
Qed.

(** C6: three lines at strictly increasing scanned indentation, the second
    one classified as a directory, the second and the third each producing
    an entry: the third line finds the mapping made for the second one on
    top of the stack, its entry is stored there and the root mapping is
    not touched by it; in the tree returned the entry is below the second
    line's name (itself below the first line's name when that line made a
    directory). *)
Theorem indent_parser_depth_anchoring text l1 l2 l3 :
  split NEWLINE (strip text) = [l1; l2; l3] ->
  tree_clean_line l2 <> [] -> tree_clean_line l3 <> [] ->
  (scan_indent l1 0 < scan_indent l2 0 < scan_indent l3 0)%Z ->
  is_directory (tree_clean_line l2) = true ->
  let c1 := tree_clean_line l1 in
  let c3 := tree_clean_line l3 in
  let k2 := tree_key (tree_clean_line l2) in
  let anchor :=
    if bool_decide (c1 = []) then []
    else if is_directory c1 then [tree_key c1] else [] in
  exists st2 st a2 r,
    tree_lines [l1; l2] tree_init = Ok st2
    /\ list.last (stack st2) = Some a2
    /\ a2 <> 0%nat
    /\ heap st2 !! a2 = Some []
    /\ parse_tree_state text = Ok st
    /\ heap st !! a2 ≫= dict_get (tree_key c3)
       = Some (if is_directory c3 then HRef (length (heap st2)) else HStr [])
    /\ heap st !! 0%nat = heap st2 !! 0%nat
    /\ parse_tree_structure text = Ok r
    /\ get_path (anchor ++ [k2; tree_key c3]) r
       = Some (if is_directory c3 then Dir [] else File []).
Proof.
  intros Hsplit H2 H3 Hind Hdir c1 c3 k2 anchor.
  pose proof (scan_indent_nonneg l1) as Hpos.
  unfold parse_tree_structure, parse_tree_state. rewrite Hsplit.
  subst anchor k2 c1 c3. unfold tree_key. rewrite Hdir.
  destruct (decide (tree_clean_line l1 = [])) as [H1|H1].
  - rewrite bool_decide_true by done.
    destruct (is_directory (tree_clean_line l3)) eqn:Hd3;
      eexists _, _, _, _;
      (split; [simpl tree_lines; rewrite (tree_line_skip _ l1) by done;
               simpl; run_line; reflexivity|]);
      (split; [reflexivity|]); (split; [done|]); (split; [reflexivity|]);
      (split; [simpl tree_lines; rewrite (tree_line_skip _ l1) by done;
               simpl; do 2 run_line; reflexivity|]);
      (split; [simpl; by rewrite ?bool_decide_true|]);
      (split; [reflexivity|]);
      (split; [simpl tree_lines; rewrite (tree_line_skip _ l1) by done;
               simpl; do 2 run_line; reflexivity|]);
      simpl; repeat (case_bool_decide; simpl); congruence.
  - rewrite bool_decide_false by done.
    destruct (is_directory (tree_clean_line l1)) eqn:Hd1;
      destruct (is_directory (tree_clean_line l3)) eqn:Hd3;
      eexists _, _, _, _;
      (split; [simpl tree_lines; do 2 run_line; reflexivity|]);
      (split; [reflexivity|]); (split; [done|]); (split; [reflexivity|]);
      (split; [simpl tree_lines; do 3 run_line; reflexivity|]);
      (split; [simpl; by rewrite ?bool_decide_true|]);
      (split; [reflexivity|]);
      (split; [simpl tree_lines; do 3 run_line; reflexivity|]);
      simpl; repeat (case_bool_decide; simpl); congruence.
Qed.

Lemma indent_parser_depth_anchoring_witness :
  let text := py "a/" ++ [NEWLINE] ++ py " b/" ++ [NEWLINE] ++ py "  c.txt" in
  split NEWLINE (strip text) = [py "a/"; py " b/"; py "  c.txt"]
  /\ exists r, parse_tree_structure text = Ok r
       /\ get_path [py "a"; py "b"; py "c.txt"] r = Some (File []).
Proof.
  split; [reflexivity|].
  destruct (indent_parser_depth_anchoring
              (py "a/" ++ [NEWLINE] ++ py " b/" ++ [NEWLINE] ++ py "  c.txt")
              (py "a/") (py " b/") (py "  c.txt") eq_refl
              ltac:(discriminate) ltac:(discriminate)
              ltac:(split; reflexivity) eq_refl)
    as (st2 & st & a2 & r & _ & _ & _ & _ & _ & _ & _ & Hr & Hpath).
  exists r. split; [exact Hr | exact Hpath].
Defined.

(** ** The clean text of a line of the Indent Parser *)

Lemma filter_drop_while (p q : N -> bool) s :
  (forall c, p c = true -> q c = false) ->
  List.filter q (drop_while p s) = List.filter q s.
Proof.
  intros Hpq. induction s as [|c r IH]; simpl; [done|].
  destruct (p c) eqn:Hp; [|done]. by rewrite (Hpq c Hp).
Qed.

Lemma filter_strip q s :
  (forall c, isspace c = true -> q c = false) ->
  List.filter q (strip s) = List.filter q s.
Proof.
  intros Hq. unfold strip, lstrip, rstrip.
  rewrite filter_drop_while, filter_rev, filter_drop_while, <- filter_rev by done.
  by rewrite rev_involutive.
Qed.

Lemma filter_re_sub b s : List.filter solid (re_sub b s) = List.filter solid s.
Proof.
  revert b. induction s as [|c r IH]; intros b; simpl; [done|]. unfold solid at 2.
  destruct (is_glyph c) eqn:Hg; simpl; [apply IH|].
  destruct (isspace c) eqn:Hs; simpl.
  - destruct b; simpl; [apply IH|]. unfold solid at 1. rewrite Hg, Hs. simpl.
    apply IH.
  - rewrite andb_false_r. simpl. unfold solid at 1. rewrite Hg, Hs. simpl.
    by rewrite IH.
Qed.

Lemma forallb_drop_while (p q : N -> bool) s :
  forallb q s = true -> forallb q (drop_while p s) = true.
Proof.
  induction s as [|c r IH]; simpl; [done|].
  intros [Hc Hr]%andb_prop. destruct (p c); [by apply IH|].
  simpl. by rewrite Hc, Hr.
Qed.

Lemma forallb_rev (q : N -> bool) s : forallb q (rev s) = forallb q s.
Proof.
  induction s as [|c r IH]; simpl; [done|].
  rewrite forallb_app, IH. simpl. rewrite andb_true_r. apply andb_comm.
Qed.

Lemma forallb_strip q s : forallb q s = true -> forallb q (strip s) = true.
Proof.
  intros H. unfold strip, lstrip, rstrip.
  apply forallb_drop_while. rewrite forallb_rev.
  apply forallb_drop_while. by rewrite forallb_rev.
Qed.

Lemma re_sub_no_glyph b s :
  forallb (fun c => negb (is_glyph c)) (re_sub b s) = true.
Proof.
  revert b. induction s as [|c r IH]; intros b; simpl; [done|].
  destruct (is_glyph c) eqn:Hg; [apply IH|].
  destruct (b && isspace c); [apply IH|]. simpl. by rewrite Hg, IH.
Qed.

Lemma re_sub_no_match s :
  forallb (fun c => negb (is_glyph c)) s = true -> re_sub false s = s.
Proof.
  induction s as [|c r IH]; simpl; [done|].
  intros [Hc Hr]%andb_prop. destruct (is_glyph c); [done|]. by rewrite IH.
Qed.

(** ** The keys of the Tree Model *)

Section AllKeys.
Variable p : str -> bool.

Lemma all_keys_set k v d :
  p k = true -> all_keys p v = true -> all_keys p (Dir d) = true ->
  all_keys p (Dir (dict_set k v d)) = true.
Proof.
  intros Hk Hv. simpl. induction d as [|[k0 v0] d IH]; simpl.
  - by rewrite Hk, Hv.
  - intros [H0 Hd]%andb_prop. case_bool_decide; simpl.
    + by rewrite Hk, Hv, Hd.
    + by rewrite H0, IH.
Qed.

Lemma all_keys_get k v d :
  all_keys p (Dir d) = true -> dict_get k d = Some v -> all_keys p v = true.
Proof.
  simpl. induction d as [|[k0 v0] d IH]; simpl; [done|].
  intros [[_ H0]%andb_prop Hd]%andb_prop. case_bool_decide.
  - by intros [= <-].
  - by apply IH.
Qed.

Lemma py_setitem_all_keys current k v current' :
  p k = true -> all_keys p v = true -> all_keys p current = true ->
  py_setitem current k v = Ok current' -> all_keys p current' = true.
Proof.
  intros Hk Hv Hc. destruct current as [s|d]; simpl; [done|].
  intros [= <-]. by apply all_keys_set.
Qed.

Lemma walk_all_keys file parts :
  Forall (fun k => p k = true) parts -> forall current current',
  all_keys p current = true ->
  walk file parts current = Ok current' -> all_keys p current' = true.
Proof.
  induction parts as [|part rest IH]; intros Hparts current current' Hc.
  - by intros [= <-].
  - apply Forall_cons in Hparts as [Hpart Hrest].
    destruct rest as [|p2 rest].
    + rewrite walk_last. destruct file.
      * by apply py_setitem_all_keys.
      * destruct (negb _); [by apply py_setitem_all_keys | by intros [= <-]].
    + destruct current as [s|d]; [by rewrite walk_through_file|].
      intros (child & child' & Hchild & Hw & ->)%walk_cons_dir.
      rewrite dict_set_set. apply all_keys_set; [done| |done].
      apply (IH Hrest child); [|done].
      destruct Hchild as [Hget | [_ ->]]; [|done].
      by apply (all_keys_get part child d).
Qed.
End AllKeys.

Lemma contains_cons ch c s :
  contains ch (c :: s) = (ch =? c) || contains ch s.
Proof. reflexivity. Qed.

Lemma split_no_sep sep s :
  Forall (fun k => negb (contains sep k) = true) (split sep s).
Proof.
  induction s as [|c r IH]; simpl; [by repeat constructor|].
  destruct (N.eqb_spec c sep) as [->|Hne].
  - by constructor.
  - destruct (split sep r) as [|h t] eqn:E; [by apply split_nonempty in E|].
    apply Forall_cons in IH as [Hh Ht]. constructor; [|done].
    rewrite contains_cons. destruct (N.eqb_spec sep c); [by subst|done].
Qed.

Lemma path_lines_all_keys p lines :
  (forall clean_line, Forall (fun k => p k = true) (entry_path clean_line)) ->
  forall root root', all_keys p root = true ->
  path_lines lines root = Ok root' -> all_keys p root' = true.
Proof.
  intros Hp. induction lines as [|line rest IH]; intros root root' Hroot; simpl.
  - by intros [= <-].
  - intros (root1 & Hline & Hrest)%bind_Ok. apply (IH root1); [|done].
    unfold path_line in Hline.
    destruct (rstrip line); [by injection Hline as <-|].
    destruct (strip _) eqn:Hc; [by injection Hline as <-|].
    rewrite add_entry_walk in Hline. by eapply walk_all_keys.
Qed.

Lemma entry_path_no_slash clean_line :
  Forall (fun k => no_slash k = true) (entry_path clean_line).
Proof.
  unfold entry_path, no_slash.
  destruct (contains SLASH clean_line) eqn:E; [apply split_no_sep|].
  repeat constructor. by rewrite E.
Qed.

Lemma dict_set_Forall {K V} `{EqDecision K} (P : K * V -> Prop) k v d :
  P (k, v) -> Forall P d -> Forall P (dict_set k v d).
Proof.
  intros Hkv. induction d as [|[k0 v0] d IH]; simpl; intros Hd.
  - by repeat constructor.
  - apply Forall_cons in Hd as [H0 Hd]. case_bool_decide; constructor; auto.
Qed.

Lemma heap_set_keys p a k v h :
  p k = true -> heap_keys p h -> heap_keys p (heap_set a k v h).
Proof.
  intros Hk Hh. unfold heap_keys, heap_set.
  apply Forall_alter; [done|]. intros d _ Hd. by apply dict_set_Forall.
Qed.

Lemma reify_all_keys p h :
  heap_keys p h -> forall fuel a, all_keys p (reify fuel h a) = true.
Proof.
  intros Hh. induction fuel as [|fuel IH]; intros a; simpl; [done|].
  destruct (h !! a) as [d|] eqn:Ha; simpl; [|done].
  pose proof (Forall_lookup_1 _ _ _ _ Hh Ha) as Hd. simpl in Hd.
  clear Ha. induction d as [|[k v] d IHd]; simpl; [done|].
  apply Forall_cons in Hd as [Hk Hd]. simpl in Hk. rewrite Hk, IHd by done.
  destruct v; simpl; [done|]. by rewrite IH.
Qed.

Lemma rstrip_char_no_final ch s : endswith ch (rstrip_char ch s) = false.
Proof.
  unfold endswith, rstrip_char.
  induction (rev s) as [|c r IH]; simpl; [done|].
  destruct (N.eqb_spec ch c) as [->|Hne]; [done|].
  simpl. rewrite last_snoc. by destruct (N.eqb_spec c ch).
Qed.

Lemma tree_key_no_final_slash clean_line :
  no_final_slash (tree_key clean_line) = true.
Proof.
  unfold no_final_slash, tree_key, is_directory.
  destruct (endswith SLASH clean_line) eqn:E; simpl.
  - by rewrite rstrip_char_no_final.
  - destruct (_ && _); [by rewrite rstrip_char_no_final | by rewrite E].
Qed.

Lemma tree_entry_keys p clean_line st st' :
  p (tree_key clean_line) = true -> heap_keys p (heap st) ->
  tree_entry clean_line st = Ok st' -> heap_keys p (heap st').
Proof.
  unfold tree_entry, tree_key. intros Hk Hh (top & _ & H)%bind_Ok.
  destruct (is_directory clean_line); injection H as <-; simpl;
    apply heap_set_keys; try done.
  apply Forall_app. split; [done|]. by repeat constructor.
Qed.

Lemma pop_too_deep_heap fuel indent st st' :
  pop_too_deep fuel indent st = Ok st' -> heap st' = heap st.
Proof.
  revert st. induction fuel as [|fuel IH]; intros st; simpl;
    destruct (_ >? _)%Z; try done; try by intros [= <-].
  intros (s1 & _ & (s2 & _ & H)%bind_Ok)%bind_Ok. by apply IH in H.
Qed.

Lemma tree_lines_keys p lines :
  (forall clean_line, p (tree_key clean_line) = true) ->
  forall st st', heap_keys p (heap st) ->
  tree_lines lines st = Ok st' -> heap_keys p (heap st').
Proof.
  intros Hp. induction lines as [|line rest IH]; intros st st' Hh; simpl.
  - by intros [= <-].
  - intros (st1 & Hline & Hrest)%bind_Ok. apply (IH st1); [|done].
    unfold tree_line in Hline.
    destruct (strip line); [by injection Hline as <-|].
    destruct (tree_clean_line line) eqn:Hc; [by injection Hline as <-|].
    apply bind_Ok in Hline as (st0 & Hpop & Hentry).
    apply (tree_entry_keys p (n0 :: l0) st0 st1 (Hp _)); [|done].
    by rewrite (pop_too_deep_heap _ _ _ _ Hpop).
Qed.

Lemma rstrip_char_nil ch s :
  rstrip_char ch s = [] -> forallb (N.eqb ch) s = true.
Proof.
  unfold rstrip_char. intros H.
  apply (f_equal (@rev N)) in H. rewrite rev_involutive in H. simpl in H.
  apply drop_while_nil in H. by rewrite forallb_rev in H.
Qed.

(** C7 as the code has it: every key of every mapping that the Path Parser
    returns is free of slashes, and every key of every mapping that the
    Indent Parser returns does not end with a slash and is empty only for
    a line whose clean text is made of slashes.  (An empty path segment is
    stored as an empty key by the Path Parser, and the Indent Parser
    stores a line with an inner slash whole.) *)
Theorem parser_keys :
  (forall text r, parse_folder_structure text = Ok r ->
     all_keys no_slash r = true)
  /\ (forall text r, parse_tree_structure text = Ok r ->
        all_keys no_final_slash r = true)
  /\ (forall clean_line, tree_key clean_line = [] ->
        forallb (N.eqb SLASH) clean_line = true).
Proof.
  split; [|split].
  - intros text r. unfold parse_folder_structure.
    by apply path_lines_all_keys; [apply entry_path_no_slash|].
  - intros text r. unfold parse_tree_structure, parse_tree_state.
    intros (st & Hst & (root & _ & [= <-])%bind_Ok)%bind_Ok.
    apply reify_all_keys.
    eapply tree_lines_keys; [apply tree_key_no_final_slash| |exact Hst].
    by repeat constructor.
  - intros clean_line. unfold tree_key.
    destruct (is_directory clean_line); [apply rstrip_char_nil|by intros ->].
Qed.

Lemma parser_keys_witness :
  let r := Dir [(py "a", Dir [([], Dir [(py "b", Dir [])])])] in
  parse_folder_structure (py "a//b") = Ok r /\ all_keys no_slash r = true.
Proof.
  split; [reflexivity|].
  exact (proj1 parser_keys (py "a//b") _ eq_refl).
Defined.

(** C7 as stated fails in both parsers: the Path Parser stores an empty
    path segment as an empty key, the Indent Parser stores a file line
    with its slashes, and a line of one slash as the empty key. *)
Lemma parser_keys_not_valid_names :
  (exists r, parse_folder_structure (py "a//b") = Ok r
     /\ get_path [py "a"; []] r = Some (Dir [(py "b", Dir [])])
     /\ all_keys valid_name r = false)
  /\ (exists r, parse_tree_structure (py "a/b.txt") = Ok r
        /\ r = Dir [(py "a/b.txt", File [])]
        /\ all_keys valid_name r = false)
  /\ (exists r, parse_tree_structure (py "/") = Ok r
        /\ r = Dir [([], Dir [])]
        /\ all_keys valid_name r = false).
Proof. repeat split; eexists; repeat split; reflexivity. Qed.

(** ** Paths as strings *)

Lemma split_no_sep_id sep k : contains sep k = false -> split sep k = [k].
Proof.
  induction k as [|c r IH]; simpl; [done|].
  rewrite N.eqb_sym. destruct (c =? sep); simpl; [done|].
  intros H. by rewrite IH.
Qed.

Lemma split_app_sep sep a b :
  split sep (a ++ sep :: b) = split sep a ++ split sep b.
Proof.
  induction a as [|c r IH]; simpl.
  - by rewrite N.eqb_refl.
  - destruct (c =? sep); [by rewrite IH|]. rewrite IH.
    destruct (split sep r) eqn:E; [by apply split_nonempty in E|done].
Qed.

Lemma plain_name_inv k :
  plain_name k = true ->
  k <> [] /\ contains SLASH k = false /\ k <> py "." /\ k <> py "..".
Proof.
  unfold plain_name. rewrite !andb_true_iff, !negb_true_iff.
  rewrite !bool_decide_eq_false. tauto.
Qed.

Lemma components_plain k : plain_name k = true -> components k = [k].
Proof.
  intros (Hne & Hsl & _)%plain_name_inv. unfold components.
  rewrite split_no_sep_id by done. simpl. by rewrite bool_decide_false.
Qed.

Lemma components_app_sep a b :
  components (a ++ SLASH :: b) = components a ++ components b.
Proof. unfold components. by rewrite split_app_sep, List.filter_app. Qed.

Lemma contains_forallb ch s :
  contains ch s = false <-> forallb (fun c => negb (c =? ch)) s = true.
Proof.
  unfold contains. induction s as [|c r IH]; simpl; [done|].
  rewrite orb_false_iff, andb_true_iff, IH, negb_true_iff, N.eqb_sym. done.
Qed.

Lemma take_while_app p a c r :
  forallb p a = true -> p c = false -> take_while p (a ++ c :: r) = a.
Proof.
  intros Ha Hc. induction a as [|x a IH]; simpl in *; [by rewrite Hc|].
  apply andb_prop in Ha as [-> Ha]. by rewrite IH.
Qed.

Lemma drop_while_app p a c r :
  forallb p a = true -> p c = false -> drop_while p (a ++ c :: r) = c :: r.
Proof.
  intros Ha Hc. induction a as [|x a IH]; simpl in *; [by rewrite Hc|].
  apply andb_prop in Ha as [-> Ha]. by rewrite IH.
Qed.

Lemma take_while_all p a : forallb p a = true -> take_while p a = a.
Proof.
  induction a as [|x a IH]; simpl; [done|].
  intros [-> Ha]%andb_prop. by rewrite IH.
Qed.

Lemma last_rev_head {A} (l : list A) c :
  list.last l = Some c -> exists r, rev l = c :: r.
Proof.
  intros [l' ->]%last_Some. exists (rev l'). by rewrite rev_app_distr.
Qed.

Lemma path_split_plain k :
  plain_name k = true -> path_split k = ([], k).
Proof.
  intros (_ & Hsl & _)%plain_name_inv. unfold path_split.
  assert (forallb not_slash (rev k) = true) as Hall.
  { rewrite forallb_rev. by apply contains_forallb. }
  rewrite (proj2 (drop_while_nil _ _) Hall), take_while_all by done.
  simpl. by rewrite rev_involutive.
Qed.

Lemma forallb_last_ne ch bp c :
  list.last bp = Some c -> c <> ch -> forallb (N.eqb ch) bp = false.
Proof.
  intros [l' ->]%last_Some Hc. rewrite forallb_app. cbn [forallb].
  rewrite (proj2 (N.eqb_neq ch c)) by done. by rewrite andb_false_r.
Qed.

Lemma rstrip_char_snoc ch bp c :
  list.last bp = Some c -> c <> ch -> rstrip_char ch (bp ++ [ch]) = bp.
Proof.
  intros [l' ->]%last_Some Hc. unfold rstrip_char.
  rewrite !rev_app_distr. cbn [rev app drop_while].
  rewrite N.eqb_refl, (proj2 (N.eqb_neq ch c)) by done.
  cbn [rev]. by rewrite rev_involutive.
Qed.

Lemma path_split_child bp cs k :
  plain_path bp cs -> plain_name k = true ->
  path_split (bp ++ SLASH :: k) = (bp, k).
Proof.
  intros (_ & (c & Hlast & Hc) & _) (_ & Hsl & _)%plain_name_inv.
  unfold path_split.
  assert (forallb not_slash (rev k) = true) as Hall.
  { rewrite forallb_rev. by apply contains_forallb. }
  rewrite rev_app_distr. cbn [rev]. rewrite <- app_assoc. cbn [app].
  rewrite take_while_app, drop_while_app
    by (done || by unfold not_slash; rewrite N.eqb_refl).
  rewrite rev_involutive. cbn [rev]. rewrite rev_involutive.
  rewrite forallb_app, (forallb_last_ne SLASH bp c) by done.
  rewrite bool_decide_false by (by destruct bp). cbn [negb andb].
  by rewrite (rstrip_char_snoc SLASH bp c).
Qed.

Lemma path_join_child bp cs k :
  plain_path bp cs -> plain_name k = true ->
  path_join bp k = bp ++ SLASH :: k.
Proof.
  intros (_ & (c & Hlast & Hc) & _) (Hne & Hsl & _)%plain_name_inv.
  unfold path_join.
  assert (startswith [SLASH] k = false) as ->.
  { destruct k as [|x k]; [done|]. simpl in *.
    rewrite orb_false_iff in Hsl. destruct Hsl as [H _]. by rewrite H. }
  unfold endswith. rewrite Hlast.
  rewrite bool_decide_false by (by intros ->).
  by destruct (N.eqb_spec c SLASH).
Qed.

Lemma plain_path_name k : plain_name k = true -> plain_path k [k].
Proof.
  intros Hk. pose proof (plain_name_inv k Hk) as (Hne & Hsl & _).
  repeat split.
  - destruct k as [|x k]; [done|]. simpl in *.
    rewrite orb_false_iff in Hsl. destruct Hsl as [H _]. by rewrite H.
  - destruct (list.last k) as [c|] eqn:E; [|by apply last_None in E].
    exists c. split; [done|]. intros ->.
    apply last_Some_elem_of, list_elem_of_In in E.
    assert (contains SLASH k = true); [|congruence].
    apply existsb_exists. exists SLASH. by rewrite N.eqb_refl.
  - by apply components_plain.
  - by repeat constructor.
Qed.

Lemma plain_path_child bp cs k :
  plain_path bp cs -> plain_name k = true ->
  plain_path (bp ++ SLASH :: k) (cs ++ [k]).
Proof.
  intros (Hrel & (c & Hlast & Hc) & Hcomp & Hcs) Hk.
  destruct (plain_path_name k Hk) as (_ & (c' & Hlast' & Hc') & Hcomp' & _).
  repeat split.
  - destruct bp; [done|]. exact Hrel.
  - exists c'. split; [|done].
    rewrite last_app, last_cons, Hlast'. done.
  - by rewrite components_app_sep, Hcomp, Hcomp'.
  - apply Forall_app. split; [done|]. by repeat constructor.
Qed.

(** ** Subtrees *)

Lemma get_path_app l m n : get_path (l ++ m) n = get_path l n ≫= get_path m.
Proof.
  revert n. induction l as [|k l IH]; intros n; simpl; [done|].
  destruct n as [c|d]; [done|]. destruct (dict_get k d); simpl; [apply IH|done].
Qed.

Lemma get_path_snoc l k n d :
  get_path l n = Some (Dir d) -> get_path (l ++ [k]) n = dict_get k d.
Proof.
  intros H. rewrite get_path_app, H. simpl. by destruct (dict_get k d).
Qed.

Lemma get_path_prefix_dir l m n x :
  m <> [] -> get_path (l ++ m) n = Some x -> exists d, get_path l n = Some (Dir d).
Proof.
  intros Hm. rewrite get_path_app. destruct (get_path l n) as [[c|d]|]; simpl.
  - by destruct m.
  - by exists d.
  - done.
Qed.

Lemma alter_path_ext f g l n x :
  get_path l n = Some x -> f x = g x -> alter_path f l n = alter_path g l n.
Proof.
  revert n. induction l as [|k l IH]; intros n; simpl.
  - by intros [= ->].
  - destruct n as [c|d]; [done|]. destruct (dict_get k d) as [child|]; simpl; [|done].
    intros Hget Hfg. by rewrite (IH child).
Qed.

Lemma alter_path_id f l n x :
  get_path l n = Some x -> f x = x -> alter_path f l n = n.
Proof.
  revert n. induction l as [|k l IH]; intros n; simpl.
  - by intros [= ->].
  - destruct n as [c|d]; [done|].
    destruct (dict_get k d) as [child|] eqn:Hk; simpl; [|done].
    intros Hget Hf. rewrite (IH child) by done. by rewrite dict_set_same.
Qed.

Lemma get_alter_path f l n x :
  get_path l n = Some x -> get_path l (alter_path f l n) = Some (f x).
Proof.
  revert n. induction l as [|k l IH]; intros n; simpl.
  - by intros [= ->].
  - destruct n as [c|d]; [done|].
    destruct (dict_get k d) as [child|] eqn:Hk; simpl; [|done].
    intros Hget. rewrite dict_get_set_eq. simpl. by apply IH.
Qed.

Lemma alter_alter_path f g l n :
  alter_path g l (alter_path f l n) = alter_path (fun x => g (f x)) l n.
Proof.
  revert n. induction l as [|k l IH]; intros n; simpl; [done|].
  destruct n as [c|d]; [done|].
  destruct (dict_get k d) as [child|] eqn:Hk; simpl; [|by rewrite Hk].
  by rewrite dict_get_set_eq, dict_set_set, IH.
Qed.

Lemma alter_path_app f l m n :
  alter_path f (l ++ m) n = alter_path (alter_path f m) l n.
Proof.
  revert n. induction l as [|k l IH]; intros n; simpl; [done|].
  destruct n as [c|d]; [done|].
  destruct (dict_get k d) as [child|]; [|done]. by rewrite IH.
Qed.

Lemma dict_set_fresh {V} k (v : V) (d : list (str * V)) :
  dict_get k d = None -> dict_set k v d = d ++ [(k, v)].
Proof.
  induction d as [|[k0 v0] d IH]; simpl; [done|].
  case_bool_decide; [done|]. intros Hd. by rewrite IH.
Qed.

Lemma dict_get_app {V} k (d1 d2 : list (str * V)) :
  dict_get k (d1 ++ d2) =
    match dict_get k d1 with Some v => Some v | None => dict_get k d2 end.
Proof.
  induction d1 as [|[k0 v0] d1 IH]; simpl; [done|]. by case_bool_decide.
Qed.

Lemma dict_get_None {V} k (d : list (str * V)) :
  dict_get k d = None <-> k ∉ d.*1.
Proof.
  induction d as [|[k0 v0] d IH]; simpl.
  - split; [intros _; apply not_elem_of_nil | done].
  - rewrite not_elem_of_cons. case_bool_decide as E.
    + split; [done|]. intros [Hne _]. by subst.
    + rewrite IH. split; [intros Hd; split; [by intros ->|done] | by intros [_ Hd]].
Qed.

Lemma dict_get_NoDup {V} k (v : V) (d : list (str * V)) :
  NoDup d.*1 -> (k, v) ∈ d -> dict_get k d = Some v.
Proof.
  induction d as [|[k0 v0] d IH]; simpl; [by intros _ ?%elem_of_nil|].
  intros [Hk0 Hd]%NoDup_cons [[= -> ->]|Hin]%elem_of_cons.
  - by rewrite bool_decide_true.
  - case_bool_decide as E; [|by apply IH]. subst k0. exfalso. apply Hk0.
    apply list_elem_of_fmap. by exists (k, v).
Qed.

(** ** Path resolution *)

Lemma step_dir_plain r dir c d :
  plain_name c = true -> get_path (dir ++ [c]) r = Some (Dir d) ->
  step_dir r dir c = Ok (dir ++ [c]).
Proof.
  intros (_ & _ & Hdot & Hdots)%plain_name_inv Hget. unfold step_dir.
  rewrite !bool_decide_false by done. by rewrite Hget.
Qed.

Lemma walk_dirs_plain r cs : forall dir d,
  Forall (fun k => plain_name k = true) cs ->
  get_path (dir ++ cs) r = Some (Dir d) ->
  walk_dirs r dir cs = Ok (dir ++ cs).
Proof.
  induction cs as [|c cs IH]; intros dir d Hcs Hget; simpl.
  - by rewrite app_nil_r.
  - apply Forall_cons in Hcs as [Hc Hcs].
    replace (dir ++ c :: cs) with ((dir ++ [c]) ++ cs) in *
      by (by rewrite <- app_assoc).
    destruct cs as [|c2 cs].
    + rewrite app_nil_r in *. by rewrite (step_dir_plain r dir c d).
    + destruct (get_path_prefix_dir (dir ++ [c]) (c2 :: cs) r _ ltac:(done) Hget)
        as [d1 Hd1].
      rewrite (step_dir_plain r dir c d1) by done. simpl. by apply (IH _ d).
Qed.

(** A plain path names the entry called by its last component in the
    directory that the other components lead to from the current one. *)
Lemma namei_plain s bp cs c d :
  plain_path bp (cs ++ [c]) ->
  get_path (cwd s ++ cs) (root s) = Some (Dir d) ->
  namei s bp = Ok (Entry (cwd s ++ cs) c false).
Proof.
  intros (Hrel & (x & Hlast & Hx) & Hcomp & Hplain) Hget. unfold namei.
  destruct bp as [|b bp]; [done|]. rewrite Hrel, Hcomp, last_snoc.
  rewrite removelast_last.
  apply Forall_app in Hplain as [Hcs [Hc _]%Forall_cons].
  rewrite (walk_dirs_plain _ _ _ d) by done. simpl.
  apply plain_name_inv in Hc as (_ & _ & Hdot & Hdots).
  rewrite !bool_decide_false by done.
  unfold endswith. rewrite Hlast. by destruct (N.eqb_spec x SLASH).
Qed.

Lemma os_stat_plain s bp cs c d :
  plain_path bp (cs ++ [c]) ->
  get_path (cwd s ++ cs) (root s) = Some (Dir d) ->
  os_stat bp s = match dict_get c d with
                 | Some n => Ok n
                 | None => Raise FileNotFoundError
                 end.
Proof.
  intros Hbp Hget. unfold os_stat. rewrite (namei_plain s bp cs c d) by done.
  simpl. rewrite (get_path_snoc _ _ _ d) by done.
  by destruct (dict_get c d) as [[?|?]|].
Qed.

(** ** The operations of the filesystem on plain paths *)

Section PlainPath.
Variables (s : fs) (bp : str) (cs : list str) (c : str) (dp : list (str * node)).
Hypothesis Hbp : plain_path bp (cs ++ [c]).
Hypothesis Hparent : get_path (cwd s ++ cs) (root s) = Some (Dir dp).

Lemma path_exists_plain : path_exists bp s = dict_mem c dp.
Proof.
  unfold path_exists, dict_mem. rewrite (os_stat_plain s bp cs c dp) by done.
  by destruct (dict_get c dp).
Qed.

Lemma path_isdir_plain d :
  dict_get c dp = Some (Dir d) -> path_isdir bp s = true.
Proof.
  intros H. unfold path_isdir.
  by rewrite (os_stat_plain s bp cs c dp), H by done.
Qed.

Lemma os_mkdir_new :
  dict_get c dp = None ->
  os_mkdir bp s
  = Done (Fs (cwd s) (alter_path (dir_add c (Dir [])) (cwd s ++ cs) (root s))).
Proof.
  intros H. unfold os_mkdir. rewrite (namei_plain s bp cs c dp) by done.
  by rewrite (get_path_snoc _ _ _ dp), H by done.
Qed.

Lemma os_mkdir_exists n :
  dict_get c dp = Some n -> os_mkdir bp s = Failed FileExistsError s.
Proof.
  intros H. unfold os_mkdir. rewrite (namei_plain s bp cs c dp) by done.
  by rewrite (get_path_snoc _ _ _ dp), H by done.
Qed.

Lemma write_file_plain content :
  (dict_get c dp = None \/ exists old, dict_get c dp = Some (File old)) ->
  write_file bp content s
  = Done (Fs (cwd s)
            (alter_path (dir_add c (File content)) (cwd s ++ cs) (root s))).
Proof.
  intros H. unfold write_file. rewrite (namei_plain s bp cs c dp) by done.
  rewrite (get_path_snoc _ _ _ dp) by done.
  by destruct H as [-> | [old ->]].
Qed.
End PlainPath.

Lemma makedirs_unfold fuel name s :
  makedirs (S fuel) name s =
    let '(head, tail) := path_split name in
    let '(head, tail) :=
      if bool_decide (tail = []) then path_split head else (head, tail) in
    let missing :=
      negb (bool_decide (head = [])) && negb (bool_decide (tail = []))
      && negb (path_exists head s) in
    (if missing
     then match makedirs fuel head s with
          | Failed FileExistsError s' => Done s'
          | o => o
          end
     else Done s) >>> fun s1 =>
    if missing && bool_decide (tail = py ".") then Done s1
    else match os_mkdir name s1 with
         | Done s2 => Done s2
         | Failed e s2 => if path_isdir name s2 then Done s2 else Failed e s2
         end.
Proof. reflexivity. Qed.

Lemma makedirs_S fuel name s head tail :
  path_split name = (head, tail) -> tail <> [] ->
  makedirs (S fuel) name s =
    (if negb (bool_decide (head = [])) && negb (path_exists head s)
     then match makedirs fuel head s with
          | Failed FileExistsError s' => Done s'
          | o => o
          end
     else Done s) >>> fun s1 =>
    if negb (bool_decide (head = [])) && negb (path_exists head s)
       && bool_decide (tail = py ".")
    then Done s1
    else match os_mkdir name s1 with
         | Done s2 => Done s2
         | Failed e s2 => if path_isdir name s2 then Done s2 else Failed e s2
         end.
Proof.
  intros Hsplit Htail. rewrite makedirs_unfold, Hsplit. cbv beta iota.
  rewrite !(bool_decide_false (tail = [])) by done. cbv beta iota zeta.
  cbn [negb]. by rewrite !andb_true_r.
Qed.

(** The directory that a plain name in the current directory asks for. *)
Lemma makedirs_target fuel s t dcwd :
  plain_name t = true ->
  get_path (cwd s) (root s) = Some (Dir dcwd) ->
  dict_get t dcwd = None ->
  makedirs (S fuel) t s
  = Done (Fs (cwd s) (alter_path (dir_add t (Dir [])) (cwd s) (root s))).
Proof.
  intros Ht Hcwd Hnew.
  pose proof (plain_name_inv t Ht) as (Hne & _).
  rewrite (makedirs_S fuel t s [] t) by (done || by apply path_split_plain).
  simpl.
  pose proof (os_mkdir_new s t [] t dcwd) as Hmk. rewrite app_nil_r in Hmk.
  rewrite Hmk; [done| |done|done].
  by apply plain_path_name.
Qed.

Lemma with_dir_get s l d x :
  get_path l (root s) = Some x -> get_path l (root (with_dir s l d)) = Some (Dir d).
Proof. intros H. simpl. by rewrite (get_alter_path _ _ _ x). Qed.

Lemma with_dir_with_dir s l d1 d2 :
  with_dir (with_dir s l d1) l d2 = with_dir s l d2.
Proof. unfold with_dir. simpl. by rewrite alter_alter_path. Qed.

Lemma with_dir_same s l d :
  get_path l (root s) = Some (Dir d) -> with_dir s l d = s.
Proof.
  intros H. unfold with_dir. rewrite (alter_path_id _ _ _ (Dir d)) by done.
  by destruct s.
Qed.

Lemma with_dir_add s l d k v :
  get_path l (root s) = Some (Dir d) ->
  Fs (cwd s) (alter_path (dir_add k v) l (root s)) = with_dir s l (dict_set k v d).
Proof.
  intros H. unfold with_dir. f_equal. by apply (alter_path_ext _ _ _ _ (Dir d)).
Qed.

Lemma with_dir_child s l d k child sub :
  get_path l (root s) = Some (Dir d) -> dict_get k d = Some child ->
  with_dir s (l ++ [k]) sub = with_dir s l (dict_set k (Dir sub) d).
Proof.
  intros Hl Hk. unfold with_dir. f_equal. rewrite alter_path_app.
  apply (alter_path_ext _ _ _ _ (Dir d)); [done|]. simpl. by rewrite Hk.
Qed.

Lemma last_snoc_inv {A} (l : list A) : l <> [] -> exists l' x, l = l' ++ [x].
Proof.
  intros Hl. destruct (list.last l) as [x|] eqn:E.
  - apply last_Some in E as [l' ->]. by exists l', x.
  - by apply last_None in E.
Qed.

Lemma at_dir_exists s bp cs d :
  at_dir s bp cs d -> path_exists bp s = true /\ path_isdir bp s = true.
Proof.
  intros (Hne & Hbp & Hget).
  destruct (last_snoc_inv cs Hne) as (cs' & c & ->).
  rewrite app_assoc in Hget.
  destruct (get_path_prefix_dir _ [c] _ _ ltac:(done) Hget) as [dp Hdp].
  rewrite (get_path_snoc _ _ _ dp) in Hget by done.
  rewrite (path_exists_plain s bp cs' c dp Hbp Hdp).
  rewrite (path_isdir_plain s bp cs' c dp Hbp Hdp d Hget).
  unfold dict_mem. by rewrite Hget.
Qed.

Lemma at_dir_with_dir s bp cs d d' :
  at_dir s bp cs d -> at_dir (with_dir s (cwd s ++ cs) d') bp cs d'.
Proof.
  intros (Hne & Hbp & Hget). split; [done|]. split; [done|].
  by apply (with_dir_get _ _ _ (Dir d)).
Qed.

Lemma at_dir_child s bp cs d k sub :
  at_dir s bp cs d -> plain_name k = true -> dict_get k d = Some (Dir sub) ->
  at_dir s (path_join bp k) (cs ++ [k]) sub.
Proof.
  intros (Hne & Hbp & Hget) Hk Hsub. split; [|split].
  - by destruct cs.
  - rewrite (path_join_child bp cs) by done. by apply plain_path_child.
  - rewrite app_assoc, (get_path_snoc _ _ _ d) by done. done.
Qed.

(** [os.makedirs] of a plain name in a directory that is there. *)
Lemma makedirs_child s bp cs d k :
  at_dir s bp cs d -> plain_name k = true ->
  os_makedirs (path_join bp k) s =
    match dict_get k d with
    | None => Done (with_dir s (cwd s ++ cs) (d ++ [(k, Dir [])]))
    | Some (Dir _) => Done s
    | Some (File _) => Failed FileExistsError s
    end.
Proof.
  intros Hat Hk. pose proof Hat as (Hne & Hbp & Hget).
  pose proof (plain_name_inv k Hk) as (Hkne & _).
  destruct (at_dir_exists s bp cs d Hat) as [Hex _].
  rewrite (path_join_child bp cs) by done. unfold os_makedirs.
  rewrite (makedirs_S _ _ s bp k) by (done || by apply (path_split_child bp cs)).
  rewrite Hex, andb_false_r. simpl.
  pose proof (plain_path_child bp cs k Hbp Hk) as Hchild.
  destruct (dict_get k d) as [[old|sub]|] eqn:Hkd.
  - rewrite (os_mkdir_exists s _ cs k d Hchild Hget (File old)) by done.
    unfold path_isdir.
    by rewrite (os_stat_plain s _ cs k d), Hkd by done.
  - rewrite (os_mkdir_exists s _ cs k d Hchild Hget (Dir sub)) by done.
    by rewrite (path_isdir_plain s _ cs k d Hchild Hget sub).
  - rewrite (os_mkdir_new s _ cs k d Hchild Hget) by done.
    by rewrite (with_dir_add s _ d), dict_set_fresh.
Qed.

(** The file branch of [create_entry] for a plain name in a directory that
    is there. *)
Lemma create_file_child s bp cs d k content :
  at_dir s bp cs d -> plain_name k = true ->
  (dict_get k d = None \/ exists old, dict_get k d = Some (File old)) ->
  create_entry bp k (File content) s
  = Done (with_dir s (cwd s ++ cs) (dict_set k (File content) d)).
Proof.
  intros Hat Hk Hkd. pose proof Hat as (Hne & Hbp & Hget).
  destruct (at_dir_exists s bp cs d Hat) as [Hex _].
  simpl. rewrite (path_join_child bp cs) by done. unfold dirname.
  rewrite (path_split_child bp cs) by done. simpl.
  rewrite Hex, andb_false_r. simpl.
  pose proof (plain_path_child bp cs k Hbp Hk) as Hchild.
  rewrite (write_file_plain s _ cs k d Hchild Hget) by done.
  by rewrite (with_dir_add s _ d).
Qed.

(** ** Induction on the Tree Model *)

Lemma node_ind' (P : node -> Prop) :
  (forall c, P (File c)) ->
  (forall d, Forall (fun kv => P kv.2) d -> P (Dir d)) ->
  forall n, P n.
Proof.
  intros Hf Hd. fix IH 1. intros [c|d]; [apply Hf|]. apply Hd.
  induction d as [|[k v] d IHd]; constructor; [apply IH | apply IHd].
Qed.

Lemma all_keys_cons p k v d :
  all_keys p (Dir ((k, v) :: d)) = true <->
  p k = true /\ all_keys p v = true /\ all_keys p (Dir d) = true.
Proof. simpl. rewrite !andb_true_iff. tauto. Qed.

Lemma unique_keys_cons k v d :
  unique_keys (Dir ((k, v) :: d)) = true <->
  (k ∉ d.*1) /\ unique_keys v = true /\ unique_keys (Dir d) = true.
Proof.
  simpl. rewrite !andb_true_iff, !bool_decide_eq_true, NoDup_cons. tauto.
Qed.

Lemma unique_keys_NoDup d : unique_keys (Dir d) = true -> NoDup d.*1.
Proof. simpl. rewrite andb_true_iff, bool_decide_eq_true. tauto. Qed.

Lemma dict_set_app_fresh {V} k (v v' : V) (d : list (str * V)) :
  dict_get k d = None -> dict_set k v' (d ++ [(k, v)]) = d ++ [(k, v')].
Proof.
  induction d as [|[k0 v0] d IH]; simpl.
  - by rewrite bool_decide_true.
  - case_bool_decide; [done|]. intros Hd. by rewrite IH.
Qed.

Lemma create_structure_cons bp k v rest s :
  create_structure bp ((k, v) :: rest) s
  = (create_entry bp k v s >>> create_structure bp rest).
Proof. reflexivity. Qed.

Lemma create_entry_dir bp k sub s :
  create_entry bp k (Dir sub) s
  = (os_makedirs (path_join bp k) s
     >>> create_structure (path_join bp k) sub).
Proof. reflexivity. Qed.

Lemma create_structure_fills structure : fills_directory structure.
Proof.
  change (match Dir structure with
          | Dir d => fills_directory d
          | File _ => True
          end).
  induction (Dir structure) as [c|items IH] using node_ind'; [done|].
  clear structure. induction items as [|[k v] rest IHrest];
    intros s bp cs d Hat Hplain Huniq Hfresh.
  - simpl. rewrite app_nil_r.
    destruct Hat as (_ & _ & Hget). by rewrite with_dir_same.
  - apply Forall_cons in IH as [IHv IH]. specialize (IHrest IH).
    apply all_keys_cons in Hplain as (Hk & Hv & Hrest).
    apply unique_keys_cons in Huniq as (Hnotin & Huv & Hurest).
    assert (dict_get k d = None) as Hkd by (apply Hfresh; simpl; left).
    pose proof Hat as (Hne & Hbp & Hget).
    rewrite create_structure_cons.
    assert (create_entry bp k v s
            = Done (with_dir s (cwd s ++ cs) (d ++ [(k, v)]))) as ->.
    { destruct v as [content|sub].
      - rewrite (create_file_child s bp cs d) by auto.
        by rewrite dict_set_fresh.
      - rewrite create_entry_dir, (makedirs_child s bp cs d), Hkd by done.
        simpl and_then.
        set (s0 := with_dir s (cwd s ++ cs) (d ++ [(k, Dir [])])).
        assert (at_dir s0 bp cs (d ++ [(k, Dir [])])) as Hat0
          by (by apply (at_dir_with_dir s bp cs d)).
        assert (dict_get k (d ++ [(k, Dir [])]) = Some (Dir [])) as Hk0.
        { rewrite dict_get_app, Hkd. simpl. by rewrite bool_decide_true. }
        simpl in IHv. rewrite (IHv s0 _ (cs ++ [k]) []);
          [|by apply (at_dir_child s0 bp cs (d ++ [(k, Dir [])]))
           |done|done|done].
        simpl app. destruct Hat0 as (_ & _ & Hget0).
        change (cwd s0) with (cwd s) in *. rewrite app_assoc.
        rewrite (with_dir_child s0 _ _ k (Dir []) sub Hget0 Hk0).
        unfold s0. by rewrite with_dir_with_dir, dict_set_app_fresh. }
    simpl and_then.
    rewrite (IHrest _ bp cs (d ++ [(k, v)])); try done.
    + simpl. by rewrite with_dir_with_dir, <- app_assoc.
    + by apply (at_dir_with_dir s bp cs d).
    + intros k' Hk'. rewrite dict_get_app, Hfresh by (simpl; by right).
      simpl. rewrite bool_decide_false; [done|]. by intros ->.
Qed.

Lemma create_structure_keeps structure : keeps_directory structure.
Proof.
  change (match Dir structure with
          | Dir d => keeps_directory d
          | File _ => True
          end).
  induction (Dir structure) as [c|items IH] using node_ind'; [done|].
  clear structure. induction items as [|[k v] rest IHrest];
    intros s bp cs d Hat Hplain Huniq Hthere; [done|].
  apply Forall_cons in IH as [IHv IH]. specialize (IHrest IH).
  apply all_keys_cons in Hplain as (Hk & Hv & Hrest).
  apply unique_keys_cons in Huniq as (Hnotin & Huv & Hurest).
  assert (dict_get k d = Some v) as Hkd by (apply Hthere; left).
  pose proof Hat as (Hne & Hbp & Hget).
  rewrite create_structure_cons.
  assert (create_entry bp k v s = Done s) as ->.
  { destruct v as [content|sub].
    - rewrite (create_file_child s bp cs d) by eauto.
      by rewrite (dict_set_same k _ d Hkd), (with_dir_same s _ d Hget).
    - rewrite create_entry_dir, (makedirs_child s bp cs d), Hkd by done.
      simpl and_then. simpl in IHv.
      apply (IHv s _ (cs ++ [k]) sub); try done.
      + by apply (at_dir_child s bp cs d).
      + intros k' v' Hin. apply dict_get_NoDup; [|done].
        by apply unique_keys_NoDup. }
  simpl and_then. apply (IHrest s bp cs d); try done.
  intros k' v' Hin. apply Hthere. by right.
Qed.

(** ** Materializing into a target of the current directory *)

Lemma with_target_at_dir s t dcwd :
  plain_name t = true ->
  get_path (cwd s) (root s) = Some (Dir dcwd) ->
  dict_get t dcwd = None \/ dict_get t dcwd = Some (Dir []) ->
  at_dir (with_target s t) t [t] [].
Proof.
  intros Ht Hcwd Hnew. split; [done|]. split; [by apply plain_path_name|].
  simpl. rewrite (get_path_snoc _ _ _ (dict_set t (Dir []) dcwd)).
  - apply dict_get_set_eq.
  - by rewrite (get_alter_path _ _ _ (Dir dcwd)).
Qed.

Lemma with_target_there s t dcwd :
  get_path (cwd s) (root s) = Some (Dir dcwd) ->
  dict_get t dcwd = Some (Dir []) -> with_target s t = s.
Proof.
  intros Hcwd Ht. unfold with_target.
  rewrite (alter_path_id _ _ _ (Dir dcwd)); [by destruct s|done|].
  simpl. by rewrite dict_set_same.
Qed.

(** The first item makes the target when it is not there. *)
Lemma create_entry_makes_target s t dcwd k v :
  plain_name t = true ->
  get_path (cwd s) (root s) = Some (Dir dcwd) ->
  dict_get t dcwd = None ->
  plain_name k = true ->
  create_entry t k v s = create_entry t k v (with_target s t).
Proof.
  intros Ht Hcwd Hnew Hk.
  pose proof (plain_path_name t Ht) as Hpt.
  pose proof (with_target_at_dir s t dcwd Ht Hcwd (or_introl Hnew)) as Hat.
  destruct (at_dir_exists _ _ _ _ Hat) as [Hex _].
  assert (path_exists t s = false) as Hno.
  { pose proof (path_exists_plain s t [] t dcwd) as H.
    rewrite app_nil_r in H. rewrite H by done. unfold dict_mem. by rewrite Hnew. }
  pose proof (plain_name_inv t Ht) as (Htne & _).
  pose proof (plain_name_inv k Hk) as (Hkne & _ & Hdot & _).
  assert (forall fuel, makedirs (S fuel) t s = Done (with_target s t)) as Hmk.
  { intros fuel. by apply (makedirs_target fuel s t dcwd). }
  destruct v as [content|sub]; simpl.
  - rewrite (path_join_child t [t]) by done. unfold dirname.
    rewrite (path_split_child t [t]) by done. simpl.
    rewrite Hno, Hex, bool_decide_false by done. simpl.
    unfold os_makedirs. by rewrite Hmk.
  - rewrite (path_join_child t [t]) by done. f_equal. unfold os_makedirs.
    rewrite !(makedirs_S _ _ _ t k) by (done || by apply (path_split_child t [t])).
    rewrite Hno, Hex, !bool_decide_false by done. simpl.
    rewrite length_app. simpl. by rewrite Nat.add_succ_r, Hmk.
Qed.

(** Materializing a model with plain, unique names into a plain target of
    the current directory that is not there, or is an empty directory:
    the run ends normally and, unless the model is empty, the target then
    holds the model. *)
Lemma create_structure_target s t dcwd structure :
  plain_name t = true ->
  get_path (cwd s) (root s) = Some (Dir dcwd) ->
  dict_get t dcwd = None \/ dict_get t dcwd = Some (Dir []) ->
  all_keys plain_name (Dir structure) = true ->
  unique_keys (Dir structure) = true ->
  exists s', create_structure t structure s = Done s'
    /\ ((structure = [] /\ s' = s) \/ at_dir s' t [t] structure).
Proof.
  intros Ht Hcwd Hnew Hplain Huniq.
  pose proof (with_target_at_dir s t dcwd Ht Hcwd Hnew) as Hat.
  assert (create_structure t structure (with_target s t)
          = Done (with_dir (with_target s t) (cwd s ++ [t]) structure)) as Hrun.
  { by rewrite (create_structure_fills structure _ t [t] []). }
  assert (at_dir (with_dir (with_target s t) (cwd s ++ [t]) structure)
            t [t] structure) as Hat'.
  { by apply (at_dir_with_dir (with_target s t) t [t] []). }
  destruct Hnew as [Hnew|Hthere].
  - destruct structure as [|[k v] rest]; [exists s; split; [done | by left]|].
    eexists. split; [|by right].
    rewrite create_structure_cons in *.
    apply all_keys_cons in Hplain as (Hk & _).
    by rewrite (create_entry_makes_target s t dcwd k v).
  - rewrite (with_target_there s t dcwd) in * by done.
    eexists. split; [exact Hrun | by right].
Qed.



(** ** The counts of the summary *)

Lemma count_dir_entries (d : list (str * node)) :
  (length (List.filter (fun kv => is_dir kv.2) d)
   + list_sum (map (fun kv => count_dirs kv.2) d))%nat
  = list_sum (map (fun kv => if is_dir kv.2 then S (count_dirs kv.2) else 0%nat) d).
Proof.
  induction d as [|[k [c|sub]] d IH]; simpl in *; [done|lia|lia].
Qed.

Lemma count_file_entries (d : list (str * node)) :
  (length (List.filter (fun kv => negb (is_dir kv.2)) d)
   + list_sum (map (fun kv => count_files kv.2) d))%nat
  = list_sum (map (fun kv => if is_dir kv.2 then count_files kv.2 else 1%nat) d).
Proof.
  induction d as [|[k [c|sub]] d IH]; simpl in *; [done|lia|lia].
Qed.

Lemma walk_tree_counts n : forall a b,
  fold_left count_step (walk_tree n) (a, b)
  = ((a + count_dirs n)%nat, (b + count_files n)%nat).
Proof.
  induction n as [c|d IH] using node_ind'; intros a b.
  - simpl. f_equal; lia.
  - cbn [walk_tree fold_left]. unfold count_step at 2. cbn [fst snd].
    rewrite !length_fmap.
    assert (forall a b,
      fold_left count_step (concat (map (fun kv => walk_tree kv.2) d)) (a, b)
      = ((a + list_sum (map (fun kv => count_dirs kv.2) d))%nat,
         (b + list_sum (map (fun kv => count_files kv.2) d))%nat)) as ->.
    { clear a b. induction d as [|[k v] d IHd]; intros a b; simpl.
      - f_equal; lia.
      - apply Forall_cons in IH as [Hv Hd]. simpl in Hv.
        rewrite fold_left_app, Hv, (IHd Hd). f_equal; lia. }
    cbn [count_dirs count_files].
    rewrite <- count_dir_entries, <- count_file_entries. f_equal; lia.
Qed.

Lemma summary_counts_dir t s d :
  os_stat t s = Ok (Dir d) ->
  summary_counts t s = (count_dirs (Dir d), count_files (Dir d)).
Proof.
  intros H. unfold summary_counts, os_walk. rewrite H.
  by rewrite (walk_tree_counts (Dir d) 0 0).
Qed.




(** ** The tree that the store denotes *)

Lemma dict_set_elem {V} k (v : V) (d : list (str * V)) kv :
  kv ∈ dict_set k v d -> kv = (k, v) \/ kv ∈ d.
Proof.
  induction d as [|[k0 v0] d IH]; simpl.
  - intros ->%list_elem_of_singleton. by left.
  - case_bool_decide.
    + intros [->|Hin]%elem_of_cons; [by left|]. right. by right.
    + intros [->|Hin]%elem_of_cons; [right; by left|].
      destruct (IH Hin) as [->|Hd]; [by left|]. right. by right.
Qed.

Lemma heap_wf_init : heap_wf (heap tree_init).
Proof.
  intros a d k b Ha Hin. destruct a; simpl in Ha; [|done].
  injection Ha as <-. by apply elem_of_nil in Hin.
Qed.

Lemma heap_wf_set_str h a k s :
  heap_wf h -> heap_wf (heap_set a k (HStr s) h).
Proof.
  intros Hwf a' d' k' b Ha' Hin. unfold heap_set in *.
  rewrite length_alter. destruct (decide (a = a')) as [<-|Hne].
  - rewrite list_lookup_alter_eq in Ha'.
    destruct (h !! a) as [d|] eqn:Ha; [|done]. injection Ha' as <-.
    apply dict_set_elem in Hin as [[=]|Hin]. by apply (Hwf a d k').
  - rewrite list_lookup_alter_ne in Ha' by done. by apply (Hwf a' d' k').
Qed.

Lemma heap_wf_set_ref h a k :
  (a < length h)%nat -> heap_wf h ->
  heap_wf (heap_set a k (HRef (length h)) (h ++ [[]])).
Proof.
  intros Ha Hwf a' d' k' b Ha' Hin. unfold heap_set in *.
  rewrite length_alter, length_app. simpl.
  destruct (decide (a = a')) as [<-|Hne].
  - rewrite list_lookup_alter_eq, lookup_app_l in Ha' by done.
    destruct (h !! a) as [d|] eqn:Had; [|done]. injection Ha' as <-.
    apply dict_set_elem in Hin as [[= _ ->]|Hin]; [lia|].
    pose proof (Hwf a d k' b Had Hin). lia.
  - rewrite list_lookup_alter_ne in Ha' by done.
    destruct (decide (a' < length h)%nat) as [Hlt|Hge].
    + rewrite lookup_app_l in Ha' by done.
      pose proof (Hwf a' d' k' b Ha' Hin). lia.
    + rewrite lookup_app_r in Ha' by lia.
      destruct (a' - length h)%nat; simpl in Ha'; [|done].
      injection Ha' as <-. by apply elem_of_nil in Hin.
Qed.

Lemma tree_lines_wf lines : forall st st',
  tree_inv st -> heap_wf (heap st) ->
  tree_lines lines st = Ok st' -> heap_wf (heap st').
Proof.
  induction lines as [|line rest IH]; intros st st' Hinv Hwf; simpl.
  - by intros [= <-].
  - intros (st1 & Hline & Hrest)%bind_Ok.
    destruct (tree_line_inv st line Hinv) as (st1' & Hline' & Hinv1).
    rewrite Hline in Hline'. injection Hline' as <-.
    apply (IH st1); [done| |done].
    unfold tree_line in Hline.
    destruct (strip line); [by injection Hline as <-|].
    destruct (tree_clean_line line) eqn:Hc; [by injection Hline as <-|].
    destruct (pop_too_deep_inv st _ (scan_indent_nonneg line) Hinv)
      as (st0 & Hpop & Hinv0 & Hheap0 & _).
    rewrite Hpop in Hline. simpl in Hline.
    destruct (tree_inv_top st0 Hinv0) as (top & Htop & Hlt).
    destruct (tree_entry_spec (n0 :: l0) st0 top Htop Hlt) as (st2 & Hst2 & Hspec).
    rewrite Hline in Hst2. injection Hst2 as <-.
    destruct (is_directory (n0 :: l0)).
    + destruct Hspec as (-> & _). rewrite Hheap0 in *.
      by apply heap_wf_set_ref.
    + destruct Hspec as (-> & _). rewrite Hheap0. by apply heap_wf_set_str.
Qed.

(** Following the addresses from [a] ends before [length h - a] steps: more
    fuel gives the same tree. *)
Lemma reify_enough h :
  heap_wf h -> forall m n a,
  (length h - a <= m)%nat -> (length h - a <= n)%nat ->
  reify m h a = reify n h a.
Proof.
  intros Hwf. induction m as [|m IH]; intros n a Hm Hn.
  - destruct n as [|n]; [done|]. simpl.
    by rewrite lookup_ge_None_2 by lia.
  - destruct n as [|n]; simpl.
    + by rewrite lookup_ge_None_2 by lia.
    + destruct (h !! a) as [d|] eqn:Ha; simpl; [|done]. f_equal.
      apply map_ext_in. intros [k [s|b]] Hin; simpl; [done|]. f_equal.
      apply list_elem_of_In in Hin.
      pose proof (Hwf a d k b Ha Hin). apply IH; lia.
Qed.

(** The tree returned by the Indent Parser is the whole tree below the
    root mapping: no fuel beyond the size of the store changes it. *)
Lemma parse_tree_structure_whole text st :
  parse_tree_state text = Ok st ->
  forall fuel, (length (heap st) <= fuel)%nat ->
  parse_tree_structure text = Ok (reify fuel (heap st) 0%nat).
Proof.
  intros Hst fuel Hfuel. unfold parse_tree_structure. rewrite Hst. simpl.
  unfold parse_tree_state in Hst.
  destruct (tree_lines_inv (split NEWLINE (strip text)) tree_init tree_inv_init)
    as (st' & Hst' & ([rest Hstk] & _)).
  rewrite Hst in Hst'. injection Hst' as <-. rewrite Hstk. simpl. f_equal.
  apply reify_enough; [|lia..].
  by apply (tree_lines_wf (split NEWLINE (strip text)) tree_init st
              tree_inv_init heap_wf_init).
Qed.

(** * Further properties of the parsers *)

(** ** Trimming and decoration *)

Lemma replace_tree_chars_map line :
  replace_tree_chars line = map blank_glyph line.
Proof.
  unfold replace_tree_chars, tree_chars, replace. cbn [fold_left].
  rewrite !map_map. apply map_ext. intros c. unfold blank_glyph, is_glyph.
  cbn [existsb].
  destruct (N.eqb_spec c TEE) as [->|H1]; [done|].
  destruct (N.eqb_spec c CORNER) as [->|H2]; [done|].
  destruct (N.eqb_spec c VBAR) as [->|H3]; [done|].
  destruct (N.eqb_spec c DASH) as [->|H4]; [done|].
  done.
Qed.

Lemma glyph_not_space c : is_glyph c = true -> isspace c = false.
Proof.
  unfold is_glyph. cbn [existsb].
  destruct (N.eqb_spec c VBAR) as [->|H1]; [done|].
  destruct (N.eqb_spec c TEE) as [->|H2]; [done|].
  destruct (N.eqb_spec c CORNER) as [->|H3]; [done|].
  destruct (N.eqb_spec c DASH) as [->|H4]; [done|].
  done.
Qed.

Lemma blank_glyph_space c :
  isspace (blank_glyph c) = decoration c.
Proof.
  unfold blank_glyph, decoration. destruct (is_glyph c) eqn:Hg; [done|done].
Qed.

Lemma rstrip_split s :
  exists w, s = rstrip s ++ w /\ forallb isspace w = true.
Proof.
  unfold rstrip.
  assert (forall r, exists w,
            rev r = rev (drop_while isspace r) ++ w
            /\ forallb isspace w = true) as Haux.
  { induction r as [|c r IH]; simpl; [by exists []|].
    destruct (isspace c) eqn:Hc.
    - destruct IH as (w & Hw & Hall). exists (w ++ [c]). split.
      + by rewrite Hw, app_assoc.
      + rewrite forallb_app, Hall. simpl. by rewrite Hc.
    - exists []. by rewrite app_nil_r. }
  destruct (Haux (rev s)) as (w & Hw & Hall). rewrite rev_involutive in Hw.
  by exists w.
Qed.

Lemma rstrip_app_space a w :
  forallb isspace w = true -> rstrip (a ++ w) = rstrip a.
Proof.
  intros Hw. unfold rstrip. rewrite rev_app_distr. f_equal.
  rewrite <- forallb_rev in Hw.
  induction (rev w) as [|c r IH]; simpl in *; [done|].
  apply andb_prop in Hw as [-> Hr]. by apply IH.
Qed.

Lemma lstrip_app_space w a :
  forallb isspace w = true -> lstrip (w ++ a) = lstrip a.
Proof.
  intros Hw. unfold lstrip.
  induction w as [|c r IH]; simpl in *; [done|].
  apply andb_prop in Hw as [-> Hr]. by apply IH.
Qed.

Lemma rstrip_nil s : rstrip s = [] <-> forallb isspace s = true.
Proof.
  unfold rstrip. split.
  - intros H. apply (f_equal (@rev N)) in H. rewrite rev_involutive in H.
    simpl in H. apply drop_while_nil in H. by rewrite forallb_rev in H.
  - intros H. by rewrite drop_while_all.
Qed.

Lemma strip_app_space_r a w :
  forallb isspace w = true -> strip (a ++ w) = strip a.
Proof. intros Hw. unfold strip. by rewrite rstrip_app_space. Qed.

Lemma rstrip_cons_space c a :
  isspace c = true -> rstrip (c :: a) = if bool_decide (rstrip a = []) then [] else c :: rstrip a.
Proof.
  intros Hc. case_bool_decide as E.
  - apply rstrip_nil. simpl. rewrite Hc. by apply rstrip_nil.
  - unfold rstrip in *. simpl.
    assert (forall l x, l <> [] -> drop_while isspace (l ++ [x]) = drop_while isspace l ++ [x] \/ drop_while isspace l = []) as Haux.
    { clear. induction l as [|y l IH]; intros x Hl; [done|]. simpl.
      destruct (isspace y); [|by left].
      destruct l as [|z l]; [by right|]. by apply IH. }
    destruct (rev a) as [|y l] eqn:Ha; [done|].
    destruct (Haux (y :: l) c ltac:(done)) as [->|Hnil]; [|by rewrite Hnil in E].
    by rewrite rev_app_distr.
Qed.

Lemma strip_app_space_l w a :
  forallb isspace w = true -> strip (w ++ a) = strip a.
Proof.
  intros Hw. unfold strip. induction w as [|c r IH]; [done|].
  simpl in Hw. apply andb_prop in Hw as [Hc Hr]. simpl app.
  rewrite rstrip_cons_space by done. case_bool_decide as E.
  - rewrite <- (IH Hr), E. done.
  - unfold lstrip at 1. simpl. rewrite Hc. by apply IH.
Qed.

(** What [path_line] takes from a line: the text left once the glyphs are
    blanks and the ends are trimmed. *)
Lemma path_line_cleaned root line :
  path_line root line =
    match strip (replace_tree_chars line) with
    | [] => Ok root
    | c :: clean_line => add_entry (c :: clean_line) root
    end.
Proof.
  assert (strip (replace_tree_chars (rstrip line))
          = strip (replace_tree_chars line)) as <-.
  { destruct (rstrip_split line) as (w & Hw & Hall).
    rewrite Hw at 2. rewrite !replace_tree_chars_map, map_app.
    rewrite strip_app_space_r; [done|].
    rewrite forallb_forall in *. intros x (y & <- & Hy)%in_map_iff.
    rewrite blank_glyph_space. unfold decoration. by rewrite (Hall y Hy), orb_true_r. }
  unfold path_line. destruct (rstrip line) as [|c l] eqn:E; [done|].
  by destruct (strip (replace_tree_chars (c :: l))).
Qed.

(** X1: the Path Parser takes nothing from the indentation or the tree
    glyphs that precede an entry: a line gives what the line without that
    prefix gives. *)
Theorem path_line_ignores_decoration prefix line root :
  forallb decoration prefix = true ->
  path_line root (prefix ++ line) = path_line root line.
Proof.
  intros Hp. rewrite !path_line_cleaned, !replace_tree_chars_map, map_app.
  rewrite strip_app_space_l; [done|].
  rewrite forallb_forall in *. intros x (y & <- & Hy)%in_map_iff.
  rewrite blank_glyph_space. by apply Hp.
Qed.

Lemma path_line_ignores_decoration_witness :
  path_line (Dir []) ([VBAR; SPACE; SPACE; SPACE; TEE; DASH; DASH; SPACE] ++ py "main.py")
  = Ok (Dir [(py "main.py", File [])]).
Proof.
  rewrite (path_line_ignores_decoration
             [VBAR; SPACE; SPACE; SPACE; TEE; DASH; DASH; SPACE] (py "main.py")
             (Dir []) eq_refl).
  reflexivity.
Defined.

Lemma split_forallb q sep s :
  forallb q s = true -> Forall (fun l => forallb q l = true) (split sep s).
Proof.
  induction s as [|c r IH]; simpl; [by repeat constructor|].
  intros [Hc Hr]%andb_prop. specialize (IH Hr).
  destruct (c =? sep); [by constructor|].
  destruct (split sep r) as [|h t]; [by repeat constructor; simpl; rewrite Hc|].
  apply Forall_cons in IH as [Hh Ht]. constructor; [|done].
  simpl. by rewrite Hc.
Qed.

Lemma path_line_decoration root line :
  forallb decoration line = true -> path_line root line = Ok root.
Proof.
  intros H. rewrite path_line_cleaned, replace_tree_chars_map.
  assert (strip (map blank_glyph line) = []) as ->; [|done].
  apply strip_nil. rewrite forallb_forall in *.
  intros x (y & <- & Hy)%in_map_iff. rewrite blank_glyph_space. by apply H.
Qed.

Lemma re_sub_decoration b s :
  forallb decoration s = true -> forallb isspace (re_sub b s) = true.
Proof.
  revert b. induction s as [|c r IH]; intros b; simpl; [done|].
  intros [Hc Hr]%andb_prop. unfold decoration in Hc.
  destruct (is_glyph c); [by apply IH|]. simpl in Hc.
  destruct (b && isspace c); [by apply IH|]. simpl. by rewrite Hc, IH.
Qed.

Lemma tree_line_decoration st line :
  forallb decoration line = true -> tree_line st line = Ok st.
Proof.
  intros H. apply tree_line_skip. unfold tree_clean_line.
  by apply strip_nil, re_sub_decoration.
Qed.

Lemma path_parser_decoration text :
  forallb decoration text = true -> parse_folder_structure text = Ok (Dir []).
Proof.
  intros H.
  pose proof (split_forallb decoration NEWLINE (strip text)
                (forallb_strip _ _ H)) as Hlines.
  unfold parse_folder_structure.
  induction Hlines as [|line rest Hline _ IH]; simpl; [done|].
  by rewrite path_line_decoration.
Qed.

Lemma tree_parser_decoration text :
  forallb decoration text = true -> parse_tree_structure text = Ok (Dir []).
Proof.
  intros H.
  pose proof (split_forallb decoration NEWLINE (strip text)
                (forallb_strip _ _ H)) as Hlines.
  unfold parse_tree_structure, parse_tree_state.
  assert (tree_lines (split NEWLINE (strip text)) tree_init = Ok tree_init)
    as ->; [|done].
  induction Hlines as [|line rest Hline _ IH]; simpl; [done|].
  by rewrite tree_line_decoration.
Qed.

(** X2: a text made of whitespace and tree glyphs only, the empty text
    among them, gives the empty mapping in both parsers. *)
Theorem blank_text_gives_empty_mapping text :
  forallb decoration text = true ->
  parse_folder_structure text = Ok (Dir [])
  /\ parse_tree_structure text = Ok (Dir []).
Proof.
  intros H. split;
    [by apply path_parser_decoration | by apply tree_parser_decoration].
Qed.

Lemma blank_text_gives_empty_mapping_witness :
  parse_folder_structure ([SPACE; VBAR; NEWLINE; TEE; DASH; DASH; SPACE]) = Ok (Dir [])
  /\ parse_tree_structure ([SPACE; VBAR; NEWLINE; TEE; DASH; DASH; SPACE]) = Ok (Dir []).
Proof.
  exact (blank_text_gives_empty_mapping
           [SPACE; VBAR; NEWLINE; TEE; DASH; DASH; SPACE] eq_refl).
Defined.

(** ** The clean text, exactly *)

Lemma re_sub_cut line : forall in_match,
  re_sub in_match line
  = (if in_match then lstrip (cut_at_glyphs line).1 else (cut_at_glyphs line).1)
    ++ concat (map lstrip (cut_at_glyphs line).2).
Proof.
  induction line as [|c r IH]; intros b; [by destruct b|].
  cbn [re_sub cut_at_glyphs]. destruct (cut_at_glyphs r) as [first rest] eqn:E.
  cbn [fst snd] in IH. destruct (is_glyph c) eqn:Hg.
  - rewrite IH. cbn [fst snd map concat]. by destruct b.
  - cbn [fst snd]. destruct b; cbn [andb].
    + unfold lstrip at 1. cbn [drop_while]. fold (lstrip first).
      destruct (isspace c); [by rewrite IH | by rewrite IH].
    + by rewrite IH.
Qed.

Lemma re_sub_without_glyph_runs line :
  re_sub false line = without_glyph_runs line.
Proof.
  rewrite re_sub_cut. unfold without_glyph_runs.
  by destruct (cut_at_glyphs line).
Qed.

Lemma re_sub_plain in_match s :
  forallb (fun c => negb (is_glyph c)) s = true ->
  re_sub in_match s = if in_match then lstrip s else s.
Proof.
  revert in_match. induction s as [|c r IH]; intros b; [by destruct b|].
  cbn [forallb re_sub]. intros [Hc Hr]%andb_prop.
  apply negb_true_iff in Hc. rewrite Hc. destruct b; cbn [andb].
  - unfold lstrip. cbn [drop_while]. destruct (isspace c); [by apply (IH true)|].
    by rewrite (IH false Hr).
  - by rewrite (IH false Hr).
Qed.

Lemma re_sub_decorated prefix name : forall in_match,
  forallb (fun c => is_glyph c || isspace c) prefix = true ->
  exists w b,
    re_sub in_match (prefix ++ name) = w ++ re_sub b name
    /\ forallb isspace w = true.
Proof.
  induction prefix as [|c r IH]; intros b H.
  - by exists [], b.
  - cbn [forallb] in H. apply andb_prop in H as [Hc Hr].
    cbn [app re_sub]. destruct (is_glyph c); [by apply IH|].
    cbn [orb] in Hc. rewrite Hc. destruct b; cbn [andb].
    + by apply IH.
    + destruct (IH false Hr) as (w & b' & -> & Hw).
      exists (c :: w), b'. split; [done|]. cbn [forallb]. by rewrite Hc.
Qed.

Lemma strip_lstrip s : strip (lstrip s) = strip s.
Proof.
  unfold lstrip. induction s as [|c r IH]; [done|]. cbn [drop_while].
  destruct (isspace c) eqn:Hc; [|done].
  rewrite IH. symmetry. by apply (strip_app_space_l [c]); cbn; rewrite Hc.
Qed.

(** C8 as the code has it: [clean_line] is the line with every glyph
    deleted, wherever it stands, together with the whitespace that follows
    it and with nothing else, and then trimmed.  So no glyph is left in
    it; the characters that are neither glyphs nor whitespace are all
    kept, in their order; and behind a leading run of glyphs and
    whitespace a name without glyphs is kept as it is, the whitespace
    inside it too, only trimmed. *)
Theorem clean_line_deletes_every_glyph line :
  tree_clean_line line = strip (without_glyph_runs line)
  /\ forallb (fun c => negb (is_glyph c)) (tree_clean_line line) = true
  /\ List.filter solid (tree_clean_line line) = List.filter solid line
  /\ (forall prefix name,
        line = prefix ++ name ->
        forallb (fun c => is_glyph c || isspace c) prefix = true ->
        forallb (fun c => negb (is_glyph c)) name = true ->
        tree_clean_line line = strip name).
Proof.
  unfold tree_clean_line. split; [|split; [|split]].
  - by rewrite re_sub_without_glyph_runs.
  - apply forallb_strip, re_sub_no_glyph.
  - rewrite filter_strip; [apply filter_re_sub|].
    intros c Hc. unfold solid. rewrite Hc. apply andb_false_r.
  - intros prefix name -> Hprefix Hname.
    destruct (re_sub_decorated prefix name false Hprefix) as (w & b & -> & Hw).
    rewrite strip_app_space_l, re_sub_plain by done.
    destruct b; [apply strip_lstrip | done].
Qed.

Lemma clean_line_deletes_every_glyph_witness :
  let prefix := [VBAR] ++ py "   " ++ [TEE; DASH; DASH; SPACE] in
  forallb (fun c => is_glyph c || isspace c) prefix = true
  /\ tree_clean_line (prefix ++ py "my file.txt ") = py "my file.txt".
Proof.
  split; [reflexivity|].
  exact (proj2 (proj2 (proj2 (clean_line_deletes_every_glyph
           (([VBAR] ++ py "   " ++ [TEE; DASH; DASH; SPACE]) ++ py "my file.txt "))))
           ([VBAR] ++ py "   " ++ [TEE; DASH; DASH; SPACE]) (py "my file.txt ")
           eq_refl eq_refl eq_refl).
Defined.

(** C8 as stated fails: a glyph inside the name and the whitespace after it
    are deleted from the stored key. *)
Lemma clean_line_inner_glyph_lost :
  let line := [TEE; DASH; DASH; SPACE] ++ py "a" ++ [VBAR; SPACE] ++ py "b.txt" in
  spec_clean_line line = py "a" ++ [VBAR; SPACE] ++ py "b.txt"
  /\ tree_clean_line line = py "ab.txt"
  /\ tree_clean_line line <> spec_clean_line line
  /\ parse_tree_structure line = Ok (Dir [(py "ab.txt", File [])]).
Proof. repeat split; try reflexivity. discriminate. Qed.

(** ** What the entries of a parsed model are *)

(** The walk returns a mapping when it starts from one, and the string it
    starts from when it starts from a string. *)
Lemma walk_kind file parts current current' :
  walk file parts current = Ok current' ->
  (forall c, current = File c -> current' = current)
  /\ (is_dir current = true -> is_dir current' = true).
Proof.
  destruct parts as [|part [|p2 rest]].
  - by intros [= <-].
  - rewrite walk_last. destruct current as [c|d]; simpl.
    + destruct file; [done|]. destruct (negb _); [done|]. by intros [= <-].
    + destruct file; [by intros [= <-]|].
      destruct (negb _); by intros [= <-].
  - destruct current as [c|d]; [by rewrite walk_through_file|].
    by intros (? & ? & _ & _ & ->)%walk_cons_dir.
Qed.

Section AllEntries.
Variable p : str -> node -> bool.
Hypothesis p_dir : forall k d, p k (Dir d) = true.

Lemma all_entries_set k v d :
  p k v = true -> all_entries p v = true -> all_entries p (Dir d) = true ->
  all_entries p (Dir (dict_set k v d)) = true.
Proof.
  intros Hk Hv. simpl. induction d as [|[k0 v0] d IH]; simpl.
  - by rewrite Hk, Hv.
  - intros [H0 Hd]%andb_prop. case_bool_decide; simpl.
    + by rewrite Hk, Hv, Hd.
    + by rewrite H0, IH.
Qed.

Lemma all_entries_get k v d :
  all_entries p (Dir d) = true -> dict_get k d = Some v ->
  all_entries p v = true.
Proof.
  simpl. induction d as [|[k0 v0] d IH]; simpl; [done|].
  intros [[_ H0]%andb_prop Hd]%andb_prop. case_bool_decide.
  - by intros [= <-].
  - by apply IH.
Qed.

Lemma all_entries_get_here k v d :
  all_entries p (Dir d) = true -> dict_get k d = Some v -> p k v = true.
Proof.
  simpl. induction d as [|[k0 v0] d IH]; simpl; [done|].
  intros [[H0 _]%andb_prop Hd]%andb_prop. case_bool_decide as E.
  - intros [= <-]. by subst.
  - by apply IH.
Qed.

Lemma walk_all_entries file parts : forall current current',
  (file = true -> p (default [] (list.last parts)) (File []) = true) ->
  all_entries p current = true ->
  walk file parts current = Ok current' -> all_entries p current' = true.
Proof.
  induction parts as [|part rest IH]; intros current current' Hfile Hc.
  - by intros [= <-].
  - destruct rest as [|p2 rest].
    + rewrite walk_last. destruct file.
      * destruct current as [s|d]; simpl; [done|]. intros [= <-].
        apply all_entries_set; [by apply Hfile|done|done].
      * destruct (negb _); [|by intros [= <-]].
        destruct current as [s|d]; simpl; [done|]. intros [= <-].
        by apply all_entries_set.
    + destruct current as [s|d]; [by rewrite walk_through_file|].
      intros (child & child' & Hchild & Hw & ->)%walk_cons_dir.
      rewrite dict_set_set.
      assert (all_entries p child' = true) as Hc'.
      { apply (IH child); [by rewrite last_cons_cons in Hfile| |done].
        destruct Hchild as [Hget | [_ ->]]; [|done].
        by apply (all_entries_get part child d). }
      apply all_entries_set; [|done..].
      destruct child' as [c|d']; [|apply p_dir].
      destruct (walk_kind _ _ _ _ Hw) as [_ Hdir].
      destruct child as [c0|d0]; [|by specialize (Hdir eq_refl)].
      destruct (walk_kind _ _ _ _ Hw) as [Hsame _].
      rewrite (Hsame c0 eq_refl).
      destruct Hchild as [Hget | [_ [=]]].
      by apply (all_entries_get_here part (File c0) d).
Qed.
End AllEntries.

Lemma is_file_last_part clean_line :
  is_file clean_line = true ->
  contains DOT (default [] (list.last (entry_path clean_line))) = true.
Proof.
  unfold is_file, entry_path, last_segment.
  by destruct (contains SLASH clean_line).
Qed.

Lemma path_lines_all_entries p lines :
  (forall k d, p k (Dir d) = true) ->
  (forall clean_line, is_file clean_line = true ->
     p (default [] (list.last (entry_path clean_line))) (File []) = true) ->
  forall root root', all_entries p root = true ->
  path_lines lines root = Ok root' -> all_entries p root' = true.
Proof.
  intros Hdir Hfile.
  induction lines as [|line rest IH]; intros root root' Hroot; simpl.
  - by intros [= <-].
  - intros (root1 & Hline & Hrest)%bind_Ok. apply (IH root1); [|done].
    rewrite path_line_cleaned in Hline.
    destruct (strip (replace_tree_chars line)) as [|c cl];
      [by injection Hline as <-|].
    rewrite add_entry_walk in Hline.
    by apply (walk_all_entries p Hdir _ _ root root1 (Hfile (c :: cl))).
Qed.

Lemma tree_lines_entries (P : str -> hval -> Prop) lines :
  (forall k b, P k (HRef b)) -> (forall k, P k (HStr [])) ->
  forall st st', heap_entries P (heap st) ->
  tree_lines lines st = Ok st' -> heap_entries P (heap st').
Proof.
  intros Href Hstr.
  induction lines as [|line rest IH]; intros st st' Hh; simpl.
  - by intros [= <-].
  - intros (st1 & Hline & Hrest)%bind_Ok. apply (IH st1); [|done].
    unfold tree_line in Hline.
    destruct (strip line); [by injection Hline as <-|].
    destruct (tree_clean_line line) as [|c cl]; [by injection Hline as <-|].
    apply bind_Ok in Hline as (st0 & Hpop & Hentry).
    rewrite <- (pop_too_deep_heap _ _ _ _ Hpop) in Hh.
    unfold tree_entry in Hentry.
    apply bind_Ok in Hentry as (top & _ & Hentry).
    destruct (is_directory (c :: cl)); injection Hentry as <-; simpl;
      unfold heap_entries, heap_set; apply Forall_alter.
    + apply Forall_app. split; [done|]. by repeat constructor.
    + intros d _ Hd. apply dict_set_Forall; [apply Href|done].
    + done.
    + intros d _ Hd. apply dict_set_Forall; [apply Hstr|done].
Qed.

Lemma reify_is_dir fuel h a : exists d, reify fuel h a = Dir d.
Proof. destruct fuel; simpl; by eexists. Qed.

Lemma reify_all_entries (P : str -> hval -> Prop) p h :
  (forall k d, p k (Dir d) = true) ->
  (forall k s, P k (HStr s) -> p k (File s) = true) ->
  heap_entries P h -> forall fuel a, all_entries p (reify fuel h a) = true.
Proof.
  intros Hdir Hfile Hh. induction fuel as [|fuel IH]; intros a; simpl; [done|].
  destruct (h !! a) as [d|] eqn:Ha; simpl; [|done].
  pose proof (Forall_lookup_1 _ _ _ _ Hh Ha) as Hd. simpl in Hd.
  clear Ha. induction d as [|[k v] d IHd]; simpl; [done|].
  apply Forall_cons in Hd as [Hk Hd]. simpl in Hk. rewrite IHd by done.
  destruct v as [s|b]; simpl.
  - by rewrite Hfile.
  - rewrite IH. destruct (reify_is_dir fuel h b) as [d' ->]. by rewrite Hdir.
Qed.

(** X3: every file of a model that a parser returns holds the empty
    string, in both parsers. *)
Theorem parsed_files_are_empty text :
  (forall r, parse_folder_structure text = Ok r ->
     all_entries empty_file r = true)
  /\ (forall r, parse_tree_structure text = Ok r ->
        all_entries empty_file r = true).
Proof.
  split; intros r.
  - unfold parse_folder_structure.
    by apply path_lines_all_entries.
  - unfold parse_tree_structure, parse_tree_state.
    intros (st & Hst & (a & _ & [= <-])%bind_Ok)%bind_Ok.
    apply (reify_all_entries
             (fun _ v => match v with HStr s => s = [] | HRef _ => True end));
      [done| |].
    + by intros k s ->.
    + eapply tree_lines_entries; [done|done| |exact Hst].
      by repeat constructor.
Qed.

Lemma parsed_files_are_empty_witness :
  all_entries empty_file (Dir [(py "a", Dir [(py "b.txt", File [])])]) = true.
Proof.
  exact (proj1 (parsed_files_are_empty (py "a/b.txt")) _ eq_refl).
Defined.

(** X4: in a model that the Path Parser returns, the name of every file
    has a dot. *)
Theorem path_parser_files_have_dots text r :
  parse_folder_structure text = Ok r -> all_entries dotted_file r = true.
Proof.
  unfold parse_folder_structure.
  apply path_lines_all_entries; [done| |done].
  intros clean_line. apply is_file_last_part.
Qed.

Lemma path_parser_files_have_dots_witness :
  all_entries dotted_file
    (Dir [(py "a.d", Dir [(py "b.txt", File [])]); (py "c", Dir [])]) = true.
Proof.
  exact (path_parser_files_have_dots
           (py "a.d/b.txt" ++ [NEWLINE] ++ py "c") _ eq_refl).
Defined.

Lemma is_file_no_dot clean_line :
  contains DOT clean_line = false -> is_file clean_line = false.
Proof.
  intros H. unfold is_file, last_segment.
  destruct (contains SLASH clean_line); [|done].
  destruct (list.last (split SLASH clean_line)) as [seg|] eqn:E; [|done].
  simpl. apply contains_forallb.
  apply contains_forallb in H.
  pose proof (split_forallb _ SLASH _ H) as Hall.
  rewrite Forall_forall in Hall. by apply Hall, last_Some_elem_of.
Qed.

Lemma cleaned_no_dot line :
  contains DOT line = false ->
  contains DOT (strip (replace_tree_chars line)) = false.
Proof.
  intros H. apply contains_forallb, forallb_strip.
  apply contains_forallb in H. rewrite replace_tree_chars_map.
  rewrite forallb_forall in *. intros x (y & <- & Hy)%in_map_iff.
  specialize (H y Hy). unfold blank_glyph. by destruct (is_glyph y).
Qed.

(** On a tree without files a directory line raises nothing. *)
Lemma walk_dirs_total parts : forall d,
  all_entries only_dir (Dir d) = true ->
  exists d', walk false parts (Dir d) = Ok (Dir d').
Proof.
  induction parts as [|part rest IH]; intros d Hd; [by exists d|].
  destruct rest as [|p2 rest].
  - rewrite walk_last. simpl. destruct (negb _); by eexists.
  - rewrite walk_cons. cbn -[walk]. unfold dict_mem.
    destruct (dict_get part d) as [child|] eqn:Hget; cbn -[walk].
    + rewrite Hget. cbn -[walk].
      pose proof (all_entries_get_here only_dir part child d Hd Hget) as Hk.
      destruct child as [c|dc]; [done|].
      destruct (IH dc) as [d' Hw]; [by apply (all_entries_get only_dir part _ d)|].
      rewrite Hw. cbn -[walk]. by eexists.
    + rewrite dict_get_set_eq. cbn -[walk].
      destruct (IH []) as [d' Hw]; [done|].
      rewrite Hw. cbn -[walk]. by eexists.
Qed.

(** X5: a text without a dot never makes the Path Parser raise, and the
    model it gives has no file. *)
Theorem path_parser_without_dots text :
  contains DOT text = false ->
  exists d, parse_folder_structure text = Ok (Dir d)
    /\ all_entries only_dir (Dir d) = true.
Proof.
  intros H. unfold parse_folder_structure.
  assert (Forall (fun l => contains DOT l = false)
            (split NEWLINE (strip text))) as Hlines.
  { apply contains_forallb in H.
    pose proof (split_forallb _ NEWLINE _ (forallb_strip _ _ H)) as Hall.
    eapply Forall_impl; [exact Hall|]. intros l Hl. by apply contains_forallb. }
  assert (forall lines d, Forall (fun l => contains DOT l = false) lines ->
            all_entries only_dir (Dir d) = true ->
            exists d', path_lines lines (Dir d) = Ok (Dir d')
              /\ all_entries only_dir (Dir d') = true) as Hgen.
  { clear. induction lines as [|line rest IH]; intros d Hl Hd; [by exists d|].
    apply Forall_cons in Hl as [Hline Hrest]. cbn [path_lines].
    rewrite path_line_cleaned.
    pose proof (cleaned_no_dot line Hline) as Hclean.
    destruct (strip (replace_tree_chars line)) as [|c cl]; [by apply IH|].
    rewrite add_entry_walk, (is_file_no_dot _ Hclean).
    destruct (walk_dirs_total (entry_path (c :: cl)) d Hd) as [d1 Hw].
    rewrite Hw. simpl. apply IH; [done|].
    by apply (walk_all_entries only_dir ltac:(done) false _ _ _ ltac:(done) Hd Hw). }
  by apply Hgen.
Qed.

Lemma path_parser_without_dots_witness :
  exists d, parse_folder_structure (py "src/utils" ++ [NEWLINE] ++ py "docs")
            = Ok (Dir d)
    /\ all_entries only_dir (Dir d) = true.
Proof.
  exact (path_parser_without_dots (py "src/utils" ++ [NEWLINE] ++ py "docs")
           eq_refl).
Defined.

(** ** Lines of the Path Parser, repeated and added *)

Lemma walk_twice file parts : forall current current',
  walk file parts current = Ok current' ->
  walk file parts current' = Ok current'.
Proof.
  induction parts as [|part rest IH]; intros current current'; [done|].
  destruct rest as [|p2 rest].
  - rewrite !walk_last. destruct current as [s|d]; simpl.
    + destruct file; [done|].
      destruct (substring_in part s) eqn:E; simpl; [|done].
      intros [= <-]. simpl. by rewrite E.
    + destruct file.
      * intros [= <-]. simpl. by rewrite dict_set_set.
      * unfold dict_mem. destruct (dict_get part d) eqn:E; simpl.
        -- intros [= <-]. simpl. unfold dict_mem. by rewrite E.
        -- intros [= <-]. simpl. unfold dict_mem.
           by rewrite dict_get_set_eq.
  - destruct current as [s|d]; [by rewrite walk_through_file|].
    intros (child & child' & _ & Hw & ->)%walk_cons_dir.
    rewrite dict_set_set, walk_cons. cbn -[walk]. unfold dict_mem.
    rewrite dict_get_set_eq. cbn -[walk]. rewrite dict_get_set_eq.
    cbn -[walk]. rewrite (IH child child' Hw). cbn -[walk].
    by rewrite dict_set_set.
Qed.

(** X6: a line of the Path Parser that is processed without raising can
    be processed again at once: it raises nothing and changes nothing. *)
Theorem path_line_twice root line root' :
  path_line root line = Ok root' -> path_line root' line = Ok root'.
Proof.
  rewrite !path_line_cleaned.
  destruct (strip (replace_tree_chars line)) as [|c cl]; [done|].
  rewrite !add_entry_walk. apply walk_twice.
Qed.

Lemma path_line_twice_witness :
  path_line (Dir [(py "src", Dir [(py "main.py", File [])])]) (py "src/main.py")
  = Ok (Dir [(py "src", Dir [(py "main.py", File [])])]).
Proof.
  exact (path_line_twice (Dir []) (py "src/main.py") _ eq_refl).
Defined.

Lemma walk_dir_preserves parts : forall current current',
  walk false parts current = Ok current' ->
  forall path v, get_path path current = Some v ->
  exists v', get_path path current' = Some v' /\ is_dir v' = is_dir v.
Proof.
  induction parts as [|part rest IH]; intros current current' Hw path v Hget.
  - injection Hw as <-. by exists v.
  - destruct path as [|k path].
    { injection Hget as <-. exists current'. split; [done|].
      destruct (walk_kind _ _ _ _ Hw) as [Hfile Hdir].
      destruct current as [c|d]; [by rewrite (Hfile c)|by apply Hdir]. }
    destruct current as [c|d]; [done|]. rewrite get_path_cons_dir in Hget.
    destruct (dict_get k d) as [x|] eqn:Hk; [|done]. simpl in Hget.
    destruct rest as [|p2 rest].
    + rewrite walk_last in Hw. simpl in Hw. unfold dict_mem in Hw.
      destruct (dict_get part d) eqn:Hpart; simpl in Hw; injection Hw as <-.
      * exists v. by rewrite (get_path_child _ _ _ x).
      * exists v. split; [|done].
        rewrite (get_path_child _ _ _ x); [done|].
        rewrite dict_get_set_ne; [done|]. intros ->. congruence.
    + apply walk_cons_dir in Hw as (child & child' & Hchild & Hw & ->).
      rewrite dict_set_set.
      destruct (decide (part = k)) as [->|Hne].
      * destruct Hchild as [Hc | [Hc _]]; [|congruence].
        assert (child = x) as -> by congruence.
        destruct (IH x child' Hw path v Hget) as (v' & Hv' & Hkind).
        exists v'. split; [|done].
        by rewrite (get_path_child _ _ _ child') by apply dict_get_set_eq.
      * exists v. split; [|done].
        rewrite (get_path_child _ _ _ x); [done|].
        by rewrite dict_get_set_ne.
Qed.

(** X7: a line of the Path Parser that is classified as a directory takes
    nothing away: every entry of the model is still there after it, a
    file still a file and a mapping still a mapping. *)
Theorem path_line_directory_only_adds root line root' :
  path_line root line = Ok root' ->
  is_file (strip (replace_tree_chars line)) = false ->
  forall path v, get_path path root = Some v ->
  exists v', get_path path root' = Some v' /\ is_dir v' = is_dir v.
Proof.
  rewrite path_line_cleaned.
  destruct (strip (replace_tree_chars line)) as [|c cl].
  - intros [= <-] _ path v Hget. by exists v.
  - rewrite add_entry_walk. intros Hw Hf. rewrite Hf in Hw.
    by apply (walk_dir_preserves _ _ _ Hw).
Qed.

Lemma path_line_directory_only_adds_witness :
  exists v', get_path [py "src"; py "main.py"]
               (Dir [(py "src", Dir [(py "main.py", File []); (py "lib", Dir [])])])
             = Some v' /\ is_dir v' = false.
Proof.
  exact (path_line_directory_only_adds
           (Dir [(py "src", Dir [(py "main.py", File [])])]) (py "src/lib")
           _ eq_refl eq_refl [py "src"; py "main.py"] (File []) eq_refl).
Defined.

(** ** Where the Indent Parser stores a line *)

Lemma scan_indent_head c r :
  c <> SPACE -> c <> VBAR -> scan_indent (c :: r) 0 = 0%Z.
Proof.
  intros Hs Hv. simpl.
  destruct (N.eqb_spec c SPACE); [done|].
  by destruct (N.eqb_spec c VBAR).
Qed.

(** X8: a line that starts with neither a space nor a vertical bar (a
    branch glyph, a tab, a name) has indentation zero, and whatever the
    lines before it were, its entry is stored in the root mapping and the
    stack is cut back to the root. *)
Theorem indent_parser_unindented_line st c r :
  tree_inv st -> c <> SPACE -> c <> VBAR ->
  tree_clean_line (c :: r) <> [] ->
  let clean_line := tree_clean_line (c :: r) in
  exists st', tree_line st (c :: r) = Ok st'
    /\ heap st' !! 0%nat ≫= dict_get (tree_key clean_line)
       = Some (if is_directory clean_line
               then HRef (length (heap st)) else HStr [])
    /\ stack st' = if is_directory clean_line
                   then [0%nat; length (heap st)] else [0%nat].
Proof.
  intros Hinv Hs Hv Hclean clean_line. subst clean_line.
  destruct (pop_too_deep_inv st 0 ltac:(lia) Hinv)
    as (st1 & Hpop & Hinv1 & Hheap & Hstk).
  destruct Hinv as ([rest Hrest] & _ & _).
  rewrite Hrest in Hstk. simpl in Hstk. rewrite take_0 in Hstk.
  assert (0 < length (heap st1))%nat as Hlt.
  { destruct Hinv1 as (_ & _ & Haddr). rewrite Hstk in Haddr.
    by apply Forall_cons in Haddr as [? _]. }
  destruct (tree_entry_spec (tree_clean_line (c :: r)) st1 0%nat
              ltac:(by rewrite Hstk) Hlt) as (st' & Hst' & Hspec).
  exists st'. split.
  - unfold tree_line.
    destruct (strip (c :: r)) eqn:E; [by apply clean_line_not_blank in Hclean|].
    destruct (tree_clean_line (c :: r)); [done|].
    by rewrite scan_indent_head, Hpop.
  - unfold tree_key. destruct (is_directory (tree_clean_line (c :: r))).
    + destruct Hspec as (_ & _ & Hname & Hstack & _).
      by rewrite Hname, Hstack, Hstk, Hheap.
    + destruct Hspec as (_ & Hname & Hstack & _).
      by rewrite Hname, Hstack, Hstk.
Qed.

Lemma indent_parser_unindented_line_witness :
  let st := TState [[(py "project", HRef 1)]; []] [0; 1]%nat [[]; py "project"] in
  let line := [TEE; DASH; DASH] ++ py " src/" in
  exists st', tree_line st line = Ok st'
    /\ heap st' !! 0%nat ≫= dict_get (py "src") = Some (HRef 2)
    /\ stack st' = [0; 2]%nat.
Proof.
  assert (tree_inv (TState [[(py "project", HRef 1)]; []] [0; 1]%nat
                      [[]; py "project"])) as Hinv.
  { split; [by exists [1%nat]|]. split; [done|].
    simpl. repeat constructor. }
  exact (indent_parser_unindented_line _ TEE ([DASH; DASH] ++ py " src/")
           Hinv ltac:(discriminate) ltac:(discriminate) ltac:(discriminate)).
Defined.

(** X9: the indentation is compared with the number of open directories,
    not with the indentation of the lines that opened them.  After a
    directory line that pops nothing, a line whose indentation is at least
    the number of directories that were open before is stored inside that
    directory, also when the two lines are indented alike. *)
Theorem indent_parser_sibling_nests st l1 l2 :
  tree_inv st ->
  tree_clean_line l1 <> [] -> is_directory (tree_clean_line l1) = true ->
  tree_clean_line l2 <> [] ->
  (Z.of_nat (length (stack st)) <= scan_indent l1 0 + 1)%Z ->
  (Z.of_nat (length (stack st)) <= scan_indent l2 0)%Z ->
  let c2 := tree_clean_line l2 in
  let made := length (heap st) in
  exists st1 st2,
    tree_line st l1 = Ok st1
    /\ list.last (stack st1) = Some made
    /\ tree_line st1 l2 = Ok st2
    /\ heap st2 !! made ≫= dict_get (tree_key c2)
       = Some (if is_directory c2 then HRef (S made) else HStr []).
Proof.
  intros Hinv H1 Hd1 H2 Hi1 Hi2 c2 made. subst c2 made.
  destruct (tree_inv_top st Hinv) as (top & Htop & Hlt).
  destruct (tree_entry_spec (tree_clean_line l1) st top Htop Hlt)
    as (st1 & Hst1 & Hspec1).
  rewrite Hd1 in Hspec1. destruct Hspec1 as (Hheap1 & _ & _ & Hstk1 & _).
  assert (length (heap st1) = S (length (heap st))) as Hlen.
  { rewrite Hheap1. unfold heap_set. rewrite length_alter, length_app.
    simpl. lia. }
  assert (list.last (stack st1) = Some (length (heap st))) as Hlast.
  { by rewrite Hstk1, last_snoc. }
  destruct (tree_entry_spec (tree_clean_line l2) st1 _ Hlast ltac:(lia))
    as (st2 & Hst2 & Hspec2).
  exists st1, st2. split; [by rewrite tree_line_no_pop|]. split; [done|].
  split.
  - rewrite tree_line_no_pop; [done..|]. rewrite Hstk1, length_app. simpl. lia.
  - unfold tree_key. destruct (is_directory (tree_clean_line l2)).
    + destruct Hspec2 as (_ & _ & Hname & _). by rewrite Hname, Hlen.
    + by destruct Hspec2 as (_ & Hname & _).
Qed.

Lemma indent_parser_sibling_nests_witness :
  let st := TState [[(py "project", HRef 1); (py "src", HRef 2)]; []; []]
                   [0; 2]%nat [[]; py "src"] in
  let l1 := [VBAR] ++ py "   " ++ [TEE; DASH; DASH] ++ py " utils/" in
  let l2 := [VBAR] ++ py "   " ++ [CORNER; DASH; DASH] ++ py " config/" in
  scan_indent l1 0 = scan_indent l2 0 /\
  exists st1 st2,
    tree_line st l1 = Ok st1
    /\ list.last (stack st1) = Some 3%nat
    /\ tree_line st1 l2 = Ok st2
    /\ heap st2 !! 3%nat ≫= dict_get (py "config") = Some (HRef 4).
Proof.
  assert (tree_inv (TState [[(py "project", HRef 1); (py "src", HRef 2)]; []; []]
                      [0; 2]%nat [[]; py "src"])) as Hinv.
  { split; [by exists [2%nat]|]. split; [done|].
    simpl. repeat constructor. }
  split; [reflexivity|].
  exact (indent_parser_sibling_nests _
           ([VBAR] ++ py "   " ++ [TEE; DASH; DASH] ++ py " utils/")
           ([VBAR] ++ py "   " ++ [CORNER; DASH; DASH] ++ py " config/")
           Hinv ltac:(discriminate) eq_refl ltac:(discriminate)
           ltac:(by vm_compute) ltac:(by vm_compute)).
Defined.

(** Both effects on the program's own example: the Indent Parser leaves
    [project] empty, puts [src], [tests], [docs] and [requirements.txt]
    beside it, and puts [config] inside [utils]. *)
Example indent_parser_on_example :
  parse_tree_structure example_structure
  = Ok (Dir [(py "project", Dir []);
             (py "src", Dir [(py "main.py", File []);
                             (py "utils", Dir [(py "__init__.py", File []);
                                               (py "helpers.py", File []);
                                               (py "config", Dir [])])]);
             (py "tests", Dir [(py "test_main.py", File [])]);
             (py "docs", Dir [(py "README.md", File [])]);
             (py "requirements.txt", File [])]).
Proof. vm_compute. reflexivity. Qed.

(** * The console *)

(** ** The text that [get_user_input] returns *)

Lemma adjacent_empty_snoc lines line :
  adjacent_empty (lines ++ [line])
  = adjacent_empty lines
    || bool_decide (list.last lines = Some []) && bool_decide (line = []).
Proof.
  induction lines as [|x lines IH]; simpl.
  - by rewrite !andb_false_r.
  - rewrite IH. destruct lines as [|y lines]; simpl.
    + rewrite !andb_false_r. simpl.
      repeat case_bool_decide; simplify_eq; done.
    + rewrite orb_assoc. done.
Qed.

Lemma adjacent_empty_app_l a b :
  adjacent_empty (a ++ b) = false -> adjacent_empty a = false.
Proof.
  revert a. induction b as [|x b IH] using rev_ind; intros a.
  - by rewrite app_nil_r.
  - rewrite app_assoc, adjacent_empty_snoc.
    intros [H _]%orb_false_elim. by apply IH.
Qed.

Lemma snoc_app {A} (l : list A) x r : l ++ x :: r = (l ++ [x]) ++ r.
Proof. by rewrite <- app_assoc. Qed.

(** The test of the loop, for lines that are given. *)
Lemma loop_test (lines : list str) (line : str) :
  bool_decide (line = []) && negb (bool_decide (lines = []))
  && bool_decide (list.last lines = Some [])
  = bool_decide (list.last lines = Some []) && bool_decide (line = []).
Proof.
  destruct lines as [|x lines]; [by rewrite andb_false_r|].
  simpl. by rewrite andb_true_r, andb_comm.
Qed.

Lemma get_user_input_loop_end stdin : forall lines,
  adjacent_empty (lines ++ stdin) = false ->
  get_user_input_loop stdin lines = (lines ++ stdin, []).
Proof.
  induction stdin as [|line rest IH]; intros lines H; simpl.
  - by rewrite app_nil_r.
  - rewrite loop_test.
    cbn [app] in H. rewrite (snoc_app lines line) in H.
    pose proof (adjacent_empty_app_l _ _ H) as H2.
    rewrite adjacent_empty_snoc in H2.
    apply orb_false_elim in H2 as [_ ->].
    by rewrite IH, <- (snoc_app lines line).
Qed.

Lemma get_user_input_loop_break pasted rest : forall lines,
  adjacent_empty (lines ++ pasted ++ [[]]) = false ->
  get_user_input_loop (pasted ++ [] :: [] :: rest) lines
  = (lines ++ pasted ++ [[]], rest).
Proof.
  induction pasted as [|line pasted IH]; intros lines H.
  - cbn [app get_user_input_loop]. rewrite !loop_test.
    cbn [app] in H. rewrite adjacent_empty_snoc in H.
    apply orb_false_elim in H as [_ ->].
    by rewrite last_snoc, !bool_decide_true.
  - cbn [app get_user_input_loop]. rewrite loop_test.
    cbn [app] in H. rewrite (snoc_app lines line) in H.
    pose proof (adjacent_empty_app_l _ _ H) as H2.
    rewrite adjacent_empty_snoc in H2.
    apply orb_false_elim in H2 as [_ ->].
    by rewrite IH, <- (snoc_app lines line).
Qed.

Lemma pop_empty_line_snoc (lines : list str) : pop_empty_line (lines ++ [[]]) = lines.
Proof.
  unfold pop_empty_line. rewrite last_snoc, removelast_last.
  rewrite bool_decide_false by (by destruct lines).
  by rewrite bool_decide_true.
Qed.

(** X10: lines pasted without two empty lines in a row and without an
    empty last line, and then two empty lines: [get_user_input] returns
    the pasted lines joined by newlines and reads nothing beyond the
    second empty line. *)
Theorem get_user_input_pasted pasted rest :
  adjacent_empty (pasted ++ [[]]) = false ->
  get_user_input (pasted ++ [] :: [] :: rest) = (join NEWLINE pasted, rest).
Proof.
  intros H. unfold get_user_input.
  rewrite (get_user_input_loop_break pasted rest []) by done.
  cbn [app]. by rewrite pop_empty_line_snoc.
Qed.

Lemma get_user_input_pasted_witness :
  get_user_input [py "src/"; py "src/main.py"; []; []; py "demo"]
  = (py "src/" ++ [NEWLINE] ++ py "src/main.py", [py "demo"]).
Proof.
  exact (get_user_input_pasted [py "src/"; py "src/main.py"] [py "demo"] eq_refl).
Defined.

(** X11: an input that ends before two empty lines in a row is read to
    its end: all of it is returned, but for one empty last line. *)
Theorem get_user_input_end_of_input stdin :
  adjacent_empty stdin = false ->
  get_user_input stdin = (join NEWLINE (pop_empty_line stdin), []).
Proof.
  intros H. unfold get_user_input.
  by rewrite (get_user_input_loop_end stdin []).
Qed.

Lemma get_user_input_end_of_input_witness :
  get_user_input [py "a"; []; py "b"; []]
  = (py "a" ++ [NEWLINE; NEWLINE] ++ py "b", []).
Proof.
  exact (get_user_input_end_of_input [py "a"; []; py "b"; []] eq_refl).
Defined.

Lemma get_user_input_loop_shape stdin : forall lines lines' rest,
  adjacent_empty lines = false ->
  get_user_input_loop stdin lines = (lines', rest) ->
  adjacent_empty lines' = false
  /\ exists read, lines' = lines ++ read
       /\ ((stdin = read ++ [] :: rest /\ list.last lines' = Some [])
           \/ (stdin = read /\ rest = [])).
Proof.
  induction stdin as [|line stdin IH]; intros lines lines' rest Hadj; simpl.
  - intros [= <- <-]. split; [done|]. exists []. rewrite app_nil_r.
    split; [done | by right].
  - rewrite loop_test.
    destruct (bool_decide (list.last lines = Some [])) eqn:Hlast;
      [destruct (bool_decide (line = [])) eqn:Hline|]; simpl.
    + intros [= <- <-]. split; [done|]. exists []. rewrite app_nil_r.
      split; [done|]. left. apply bool_decide_eq_true in Hlast, Hline.
      by subst line.
    + intros H. apply IH in H as (Hadj' & read & -> & Hcase).
      * split; [done|]. exists (line :: read). rewrite <- snoc_app in *.
        split; [done|]. destruct Hcase as [[-> Hl] | [-> ->]]; [by left | by right].
      * by rewrite adjacent_empty_snoc, Hadj, Hlast, Hline.
    + intros H. apply IH in H as (Hadj' & read & -> & Hcase).
      * split; [done|]. exists (line :: read). rewrite <- snoc_app in *.
        split; [done|]. destruct Hcase as [[-> Hl] | [-> ->]]; [by left | by right].
      * by rewrite adjacent_empty_snoc, Hadj, Hlast.
Qed.

(** X12: whatever the input is, the text returned is a first part of it,
    joined by newlines, without two empty lines in a row and without an
    empty last line; after it the input had two empty lines, which are
    consumed and nothing more, or it ended there, or after one empty
    line. *)
Theorem get_user_input_reads_prefix stdin text rest :
  get_user_input stdin = (text, rest) ->
  exists pasted,
    text = join NEWLINE pasted
    /\ adjacent_empty (pasted ++ [[]]) = false
    /\ (stdin = pasted ++ [] :: [] :: rest
        \/ (rest = [] /\ (stdin = pasted \/ stdin = pasted ++ [[]]))).
Proof.
  unfold get_user_input.
  destruct (get_user_input_loop stdin []) as [lines rest'] eqn:Hloop.
  intros [= <- <-].
  apply get_user_input_loop_shape in Hloop as (Hadj & read & -> & Hcase);
    [|done].
  cbn [app] in *. unfold pop_empty_line.
  destruct (bool_decide (list.last read = Some [])) eqn:Hlast.
  - apply bool_decide_eq_true in Hlast.
    pose proof Hlast as [pasted ->]%last_Some.
    rewrite bool_decide_false by (by destruct pasted). simpl.
    rewrite removelast_last. exists pasted. split; [done|]. split; [done|].
    destruct Hcase as [[-> _] | [-> ->]].
    + left. by rewrite <- snoc_app.
    + right. split; [done | by right].
  - rewrite andb_false_r. exists read. split; [done|].
    split; [by rewrite adjacent_empty_snoc, Hadj, Hlast|].
    apply bool_decide_eq_false in Hlast.
    destruct Hcase as [[-> Hl] | [-> ->]]; [done|].
    right. split; [done | by left].
Qed.

Lemma get_user_input_reads_prefix_witness :
  exists pasted,
    py "a" = join NEWLINE pasted
    /\ adjacent_empty (pasted ++ [[]]) = false
    /\ ([py "a"; []; []; py "b"] = pasted ++ [] :: [] :: [py "b"]
        \/ ([py "b"] = [] /\ ([py "a"; []; []; py "b"] = pasted
                              \/ [py "a"; []; []; py "b"] = pasted ++ [[]]))).
Proof.
  exact (get_user_input_reads_prefix [py "a"; []; []; py "b"] (py "a") [py "b"]
           eq_refl).
Defined.

(** ** The listing that [debug_structure] prints *)

Lemma debug_items_length structure indent :
  Forall (fun item => forall indent name,
            length (debug_entry indent name item.2)
            = if is_dir item.2
              then S (count_dirs item.2 + count_files item.2) else 1%nat)
         structure ->
  length (debug_structure structure indent)
  = (count_dirs (Dir structure) + count_files (Dir structure))%nat.
Proof.
  unfold debug_structure.
  induction structure as [|[name content] structure IH]; [done|].
  intros [Hhere Hrest]%Forall_cons. specialize (IH Hrest).
  cbn [flat_map count_dirs count_files map list_sum fst snd] in *.
  rewrite length_app, IH, Hhere. unfold list_sum. cbn [fold_right].
  destruct (is_dir content); lia.
Qed.

Lemma debug_entry_length content : forall indent name,
  length (debug_entry indent name content)
  = if is_dir content
    then S (count_dirs content + count_files content) else 1%nat.
Proof.
  induction content as [c|structure IH] using node_ind'; intros indent name.
  - done.
  - cbn [debug_entry is_dir length]. f_equal.
    exact (debug_items_length structure (S indent) IH).
Qed.


(** * The program *)

(** ** The names of a parsed model are pairwise different *)

Lemma dict_set_keys_NoDup {V} k (v : V) (d : list (str * V)) :
  NoDup d.*1 -> NoDup (dict_set k v d).*1.
Proof.
  induction d as [|[k0 v0] d IH]; simpl.
  - intros _. apply NoDup_singleton.
  - intros [Hnotin Hd]%NoDup_cons. case_bool_decide as E.
    + subst k0. simpl. by apply NoDup_cons.
    + simpl. apply NoDup_cons. split; [|by apply IH].
      intros ([k1 v1] & -> & Hin)%list_elem_of_fmap.
      apply dict_set_elem in Hin as [[= -> ->] | Hin]; [done|].
      apply Hnotin, list_elem_of_fmap. by exists (k1, v1).
Qed.

Lemma unique_keys_set k v d :
  unique_keys v = true -> unique_keys (Dir d) = true ->
  unique_keys (Dir (dict_set k v d)) = true.
Proof.
  intros Hv. simpl. intros [Hnd Hd]%andb_prop.
  apply bool_decide_eq_true in Hnd.
  rewrite bool_decide_true by (by apply dict_set_keys_NoDup). simpl.
  clear Hnd. induction d as [|[k0 v0] d IH]; simpl.
  - by rewrite Hv.
  - simpl in Hd. apply andb_prop in Hd as [H0 Hd].
    case_bool_decide; simpl; [by rewrite Hv, Hd | by rewrite H0, IH].
Qed.

Lemma unique_keys_get k v d :
  unique_keys (Dir d) = true -> dict_get k d = Some v -> unique_keys v = true.
Proof.
  simpl. intros [_ Hd]%andb_prop.
  induction d as [|[k0 v0] d IH]; simpl; [done|].
  simpl in Hd. apply andb_prop in Hd as [H0 Hd]. case_bool_decide.
  - by intros [= <-].
  - by apply IH.
Qed.

Lemma walk_unique_keys file parts : forall current current',
  unique_keys current = true ->
  walk file parts current = Ok current' -> unique_keys current' = true.
Proof.
  induction parts as [|part rest IH]; intros current current' Hc.
  - by intros [= <-].
  - destruct rest as [|p2 rest].
    + rewrite walk_last.
      destruct current as [c|d]; simpl; destruct file; simpl; try done.
      * destruct (substring_in part c); simpl; [by intros [= <-] | done].
      * intros [= <-]. by apply unique_keys_set.
      * destruct (dict_mem part d); simpl; intros [= <-]; [done|].
        by apply unique_keys_set.
    + destruct current as [c|d]; [by rewrite walk_through_file|].
      intros (child & child' & Hchild & Hw & ->)%walk_cons_dir.
      rewrite dict_set_set. apply unique_keys_set; [|done].
      apply (IH child); [|done].
      destruct Hchild as [Hget | [_ ->]]; [|done].
      by apply (unique_keys_get part child d).
Qed.

Lemma path_parser_unique_keys text r :
  parse_folder_structure text = Ok r -> unique_keys r = true.
Proof.
  unfold parse_folder_structure.
  assert (forall lines root root', unique_keys root = true ->
            path_lines lines root = Ok root' -> unique_keys root' = true) as H.
  { induction lines as [|line rest IH]; intros root root' Hroot; simpl.
    - by intros [= <-].
    - intros (root1 & Hline & Hrest)%bind_Ok. apply (IH root1); [|done].
      rewrite path_line_cleaned in Hline.
      destruct (strip _); [by injection Hline as <-|].
      rewrite add_entry_walk in Hline. by eapply walk_unique_keys. }
  by apply H.
Qed.

Lemma tree_lines_NoDup lines : forall st st',
  Forall (fun d => NoDup d.*1) (heap st) ->
  tree_lines lines st = Ok st' -> Forall (fun d => NoDup d.*1) (heap st').
Proof.
  induction lines as [|line rest IH]; intros st st' Hh; simpl.
  - by intros [= <-].
  - intros (st1 & Hline & Hrest)%bind_Ok. apply (IH st1); [|done].
    unfold tree_line in Hline.
    destruct (strip line); [by injection Hline as <-|].
    destruct (tree_clean_line line) eqn:Hc; [by injection Hline as <-|].
    apply bind_Ok in Hline as (st0 & Hpop & Hentry).
    rewrite <- (pop_too_deep_heap _ _ _ _ Hpop) in Hh.
    unfold tree_entry in Hentry.
    apply bind_Ok in Hentry as (top & _ & Hentry).
    destruct (is_directory _); injection Hentry as <-; simpl;
      unfold heap_set; apply Forall_alter;
      try (intros d _ Hd; by apply dict_set_keys_NoDup); [|done].
    apply Forall_app. split; [done|]. repeat constructor.
Qed.

Lemma reify_unique_keys h :
  Forall (fun d => NoDup d.*1) h ->
  forall fuel a, unique_keys (reify fuel h a) = true.
Proof.
  intros Hh. induction fuel as [|fuel IH]; intros a; [done|].
  cbn [reify unique_keys].
  destruct (h !! a) as [d|] eqn:Ha; [|done]. cbn [default].
  - pose proof (Forall_lookup_1 _ _ _ _ Hh Ha) as Hd. simpl in Hd.
    apply andb_true_intro. split.
    + apply bool_decide_eq_true.
      assert (forall f : str * hval -> node,
                (map (fun kv => (kv.1, f kv)) d).*1 = d.*1) as Hkeys.
      { intros f. clear. induction d as [|kv d IHd]; simpl; [done|].
        by f_equal. }
      change (id d) with d.
      by rewrite (Hkeys (fun kv => match kv.2 with
                                   | HStr s => File s
                                   | HRef b => reify fuel h b
                                   end)).
    + change (id d) with d. clear -IH.
      induction d as [|[k v] d IHd]; simpl; [done|].
      rewrite IHd, andb_true_r. destruct v; simpl; [done | apply IH].
Qed.

Lemma tree_parser_unique_keys text r :
  parse_tree_structure text = Ok r -> unique_keys r = true.
Proof.
  unfold parse_tree_structure, parse_tree_state.
  intros (st & Hst & (root & _ & [= <-])%bind_Ok)%bind_Ok.
  apply reify_unique_keys.
  apply (tree_lines_NoDup _ tree_init st) in Hst; [done|].
  repeat constructor.
Qed.

(** ** How [main] and the tree format end *)

Lemma blank_is_decoration s : strip s = [] -> forallb decoration s = true.
Proof.
  intros H%strip_nil. rewrite forallb_forall in *. intros c Hc.
  unfold decoration. by rewrite (H c Hc), orb_true_r.
Qed.

Lemma overwrite_existing_fresh rmtree t stdin s :
  path_exists t s = false -> overwrite_existing rmtree t stdin s = Proceed stdin s.
Proof. unfold overwrite_existing. by intros ->. Qed.

(** A plain target that is not there in the current directory: no
    question is asked for it, the model is made below it, and the walk
    over it counts the model. *)
Lemma fresh_target_run s t dcwd structure :
  plain_name t = true ->
  get_path (cwd s) (root s) = Some (Dir dcwd) ->
  dict_get t dcwd = None ->
  all_keys plain_name (Dir structure) = true ->
  unique_keys (Dir structure) = true ->
  path_exists t s = false
  /\ exists s', create_structure t structure s = Done s'
       /\ ((structure = [] /\ s' = s)
           \/ (get_path (cwd s' ++ [t]) (root s') = Some (Dir structure)
               /\ summary_counts t s'
                  = (count_dirs (Dir structure), count_files (Dir structure)))).
Proof.
  intros Ht Hcwd Hnew Hplain Huniq.
  pose proof (plain_path_name t Ht) as Hpt. split.
  - pose proof (path_exists_plain s t [] t dcwd Hpt) as H.
    rewrite app_nil_r in H. rewrite H by done. unfold dict_mem. by rewrite Hnew.
  - destruct (create_structure_target s t dcwd structure Ht Hcwd
                (or_introl Hnew) Hplain Huniq) as (s' & Hrun & Hcase).
    exists s'. split; [done|]. destruct Hcase as [Hempty | Hat]; [by left|].
    right. destruct Hat as (_ & Hpath & Hget). split; [done|].
    apply summary_counts_dir.
    destruct (get_path_prefix_dir _ [t] _ _ ltac:(done) Hget) as [dp Hdp].
    pose proof (os_stat_plain s' t [] t dp) as Hstat.
    rewrite app_nil_r in Hstat. rewrite Hstat by done.
    rewrite (get_path_snoc _ _ _ dp) in Hget by done. by rewrite Hget.
Qed.

(** X14: when the Path Parser raises on the pasted text, [main] still asks
    for the folder name, then reports the exception as an error; the
    filesystem is left as it was and no further line is read. *)
Theorem main_reports_parser_exception rmtree stdin text line rest e s :
  get_user_input stdin = (text, line :: rest) ->
  parse_folder_structure text = Raise e ->
  main rmtree stdin s = (Returned (Error (Exn e)), rest, s).
Proof.
  intros Hget Hparse. unfold main. rewrite Hget.
  rewrite bool_decide_false.
  - cbn [input]. by rewrite Hparse.
  - intros Hblank%blank_is_decoration%path_parser_decoration. congruence.
Qed.

Lemma main_reports_parser_exception_witness :
  main (fun _ s => Done s) [py "a.txt"; py "a.txt/b"; []; []; py "demo"] home
  = (Returned (Error (Exn TypeError)), [], home).
Proof.
  exact (main_reports_parser_exception (fun _ s => Done s)
           [py "a.txt"; py "a.txt/b"; []; []; py "demo"]
           (py "a.txt" ++ [NEWLINE] ++ py "a.txt/b") (py "demo") [] TypeError
           home eq_refl eq_refl).
Defined.



(** X16: an input that ends before two empty lines in a row, a file piped
    in for one, never gets as far as the parser: the paste takes all of
    it, and a paste that is not blank ends in the [EOFError] of the
    prompt for the folder name, which nothing catches.  The filesystem is
    left as it was. *)
Theorem paste_without_terminator rmtree stdin s :
  adjacent_empty stdin = false ->
  let blank := bool_decide (strip (join NEWLINE (pop_empty_line stdin)) = []) in
  main rmtree stdin s
  = (if blank then Returned NoStructure else Uncaught EOFError, [], s)
  /\ tree_format rmtree stdin s
     = (if blank then Exited NoStructure else Uncaught EOFError, [], s).
Proof.
  intros H blank. subst blank. unfold main, tree_format, get_user_input.
  rewrite (get_user_input_loop_end stdin []) by done. cbn [app].
  by case_bool_decide.
Qed.

Lemma paste_without_terminator_witness :
  main (fun _ s => Done s) [py "src/main.py"; []; py "README.md"] home
  = (Uncaught EOFError, [], home)
  /\ tree_format (fun _ s => Done s) [py "src/main.py"; []; py "README.md"] home
     = (Uncaught EOFError, [], home).
Proof.
  exact (paste_without_terminator (fun _ s => Done s)
           [py "src/main.py"; []; py "README.md"] home eq_refl).
Defined.

Lemma tree_parser_gives_dir text r :
  parse_tree_structure text = Ok r -> exists structure, r = Dir structure.
Proof.
  unfold parse_tree_structure.
  intros (st & _ & (a & _ & [= <-])%bind_Ok)%bind_Ok. apply reify_is_dir.
Qed.



(** X18: a paste that is not blank but holds only tree glyphs and
    whitespace, with a folder name that is not there: [main] reports that
    nothing could be parsed; the tree format has no such test and reports
    success, having made nothing.  Both leave the filesystem as it was. *)
Theorem paste_of_glyphs_only rmtree stdin text line rest s :
  get_user_input stdin = (text, line :: rest) ->
  strip text <> [] ->
  forallb decoration text = true ->
  path_exists (folder_name line) s = false ->
  main rmtree stdin s = (Returned CouldNotParse, rest, s)
  /\ tree_format rmtree stdin s = (Returned CreatedTree, rest, s).
Proof.
  intros Hget Htext Hdeco Hfresh. unfold main, tree_format.
  rewrite Hget, bool_decide_false by done. cbn [input].
  rewrite (path_parser_decoration _ Hdeco), (tree_parser_decoration _ Hdeco).
  by rewrite overwrite_existing_fresh.
Qed.

Lemma paste_of_glyphs_only_witness :
  main (fun _ s => Done s) [[VBAR; SPACE; TEE; DASH]; []; []; py "demo"] home
  = (Returned CouldNotParse, [], home)
  /\ tree_format (fun _ s => Done s)
       [[VBAR; SPACE; TEE; DASH]; []; []; py "demo"] home
     = (Returned CreatedTree, [], home).
Proof.
  exact (paste_of_glyphs_only (fun _ s => Done s)
           [[VBAR; SPACE; TEE; DASH]; []; []; py "demo"]
           [VBAR; SPACE; TEE; DASH] (py "demo") [] home
           eq_refl ltac:(discriminate) eq_refl eq_refl).
Defined.

(** X19: a folder that is there is safe without the answer [y] or [Y].
    When the name given is the name of something that exists, and the
    input has no further line or its next line, stripped, is not [y] or
    [Y], then neither [main] nor the tree format changes the filesystem,
    and neither runs [shutil.rmtree]: the run is the same whatever
    [rmtree] is. *)
Theorem existing_folder_needs_yes rmtree rmtree' stdin text line tail s :
  get_user_input stdin = (text, line :: tail) ->
  path_exists (folder_name line) s = true ->
  (forall answer rest, tail = answer :: rest ->
     lower_is_y (strip answer) = false) ->
  (main rmtree stdin s = main rmtree' stdin s
   /\ (main rmtree stdin s).2 = s)
  /\ (tree_format rmtree stdin s = tree_format rmtree' stdin s
      /\ (tree_format rmtree stdin s).2 = s).
Proof.
  intros Hget Hthere Hno.
  assert (forall rm, overwrite_existing rm (folder_name line) tail s
                     = match tail with
                       | [] => Broke EOFError [] s
                       | _ :: rest => Declined rest
                       end) as Hask.
  { intros rm. unfold overwrite_existing. rewrite Hthere.
    destruct tail as [|answer rest]; [done|]. cbn [input].
    by rewrite (Hno answer rest). }
  unfold main, tree_format. rewrite Hget.
  case_bool_decide; [done|]. cbn [input].
  split.
  - destruct (parse_folder_structure text) as [[c|structure]|e];
      [by case_bool_decide| |done].
    case_bool_decide; [done|]. rewrite !Hask. by destruct tail.
  - destruct (parse_tree_structure text) as [[c|structure]|e]; [done| |done].
    rewrite !Hask. by destruct tail.
Qed.

Lemma existing_folder_needs_yes_witness :
  let s := Fs [py "home"] (Dir [(py "home", Dir [(py "demo", Dir [(py "old", File [])])])]) in
  let stdin := [py "src/main.py"; []; []; py "demo"; py "yes"] in
  (main (fun _ s => Done home) stdin s = main (fun _ s => Done s) stdin s
   /\ (main (fun _ s => Done home) stdin s).2 = s)
  /\ (tree_format (fun _ s => Done home) stdin s
      = tree_format (fun _ s => Done s) stdin s
      /\ (tree_format (fun _ s => Done home) stdin s).2 = s).
Proof.
  refine (existing_folder_needs_yes (fun _ s => Done home) (fun _ s => Done s)
            [py "src/main.py"; []; []; py "demo"; py "yes"]
            (py "src/main.py") (py "demo") [py "yes"]
            (Fs [py "home"]
                (Dir [(py "home", Dir [(py "demo", Dir [(py "old", File [])])])]))
            eq_refl eq_refl _).
  intros answer rest [= <- <-]. reflexivity.
Defined.

(** * The Materializer over what is there *)

Lemma create_file_over_dir s bp cs d k content sub :
  at_dir s bp cs d -> plain_name k = true ->
  dict_get k d = Some (Dir sub) ->
  create_entry bp k (File content) s = Failed IsADirectoryError s.
Proof.
  intros Hat Hk Hkd. pose proof Hat as (Hne & Hbp & Hget).
  destruct (at_dir_exists s bp cs d Hat) as [Hex _].
  simpl. rewrite (path_join_child bp cs) by done. unfold dirname.
  rewrite (path_split_child bp cs) by done. simpl.
  rewrite Hex, andb_false_r. simpl.
  pose proof (plain_path_child bp cs k Hbp Hk) as Hchild.
  unfold write_file. rewrite (namei_plain s _ cs k d) by done.
  by rewrite (get_path_snoc _ _ _ d), Hkd by done.
Qed.

(** X20: an item whose kind is not the kind of what is there under its
    name stops the Materializer.  In a directory that is there, a mapping
    of the model named as a file that is there raises [FileExistsError],
    and a string of the model named as a directory that is there raises
    [IsADirectoryError]; the item changes nothing and the items after it
    are not made. *)
Theorem create_structure_kind_conflict s bp cs d k v rest :
  at_dir s bp cs d -> plain_name k = true ->
  (exists there, dict_get k d = Some there /\ is_dir there = negb (is_dir v)) ->
  create_structure bp ((k, v) :: rest) s
  = Failed (if is_dir v then FileExistsError else IsADirectoryError) s.
Proof.
  intros Hat Hk (there & Hkd & Hkind). rewrite create_structure_cons.
  destruct v as [content|sub]; destruct there as [old|sub']; try done.
  - by rewrite (create_file_over_dir s bp cs d k content sub').
  - rewrite create_entry_dir, (makedirs_child s bp cs d k) by done.
    by rewrite Hkd.
Qed.

Lemma create_structure_kind_conflict_witness :
  let s := Fs [py "home"]
              (Dir [(py "home", Dir [(py "demo", Dir [(py "src", File [])])])]) in
  create_structure (py "demo")
    [(py "src", Dir [(py "main.py", File [])]); (py "README.md", File [])] s
  = Failed FileExistsError s.
Proof.
  refine (create_structure_kind_conflict
            (Fs [py "home"]
                (Dir [(py "home", Dir [(py "demo", Dir [(py "src", File [])])])]))
            (py "demo") [py "demo"] [(py "src", File [])] (py "src")
            (Dir [(py "main.py", File [])]) [(py "README.md", File [])]
            _ eq_refl _).
  - split; [done|]. split; [by apply plain_path_name | reflexivity].
  - exists (File []). by split.
Defined.

(** X21: a file that is there is written over.  In a directory that is
    there, a string of the model named as a file that is there replaces
    its content, whatever it was, and keeps its place among the entries;
    nothing else of the directory changes. *)
Theorem create_structure_overwrites_file s bp cs d k old content :
  at_dir s bp cs d -> plain_name k = true ->
  dict_get k d = Some (File old) ->
  exists s',
    create_structure bp [(k, File content)] s = Done s'
    /\ get_path (cwd s' ++ cs) (root s')
       = Some (Dir (dict_set k (File content) d))
    /\ (dict_set k (File content) d).*1 = d.*1.
Proof.
  intros Hat Hk Hkd. pose proof Hat as (Hne & Hbp & Hget).
  eexists. split; [|split].
  - rewrite create_structure_cons.
    rewrite (create_file_child s bp cs d k content) by eauto. reflexivity.
  - by apply (with_dir_get s _ _ (Dir d)).
  - clear -Hkd. induction d as [|[k0 v0] d IH]; simpl in *; [done|].
    case_bool_decide; simpl; [by subst | f_equal; by apply IH].
Qed.

Lemma create_structure_overwrites_file_witness :
  let s := Fs [py "home"]
              (Dir [(py "home", Dir [(py "demo", Dir [(py "a.txt", File (py "text"))])])]) in
  exists s',
    create_structure (py "demo") [(py "a.txt", File [])] s = Done s'
    /\ get_path (cwd s' ++ [py "demo"]) (root s')
       = Some (Dir (dict_set (py "a.txt") (File []) [(py "a.txt", File (py "text"))]))
    /\ (dict_set (py "a.txt") (File []) [(py "a.txt", File (py "text"))]).*1
       = [(py "a.txt", File (py "text"))].*1.
Proof.
  refine (create_structure_overwrites_file
            (Fs [py "home"]
                (Dir [(py "home", Dir [(py "demo", Dir [(py "a.txt", File (py "text"))])])]))
            (py "demo") [py "demo"] [(py "a.txt", File (py "text"))]
            (py "a.txt") (py "text") [] _ eq_refl eq_refl).
  split; [done|]. split; [by apply plain_path_name | reflexivity].
Defined.

(** * When the Path Parser raises *)

Lemma bind_Raise {A B} (m : res A) (f : A -> res B) (e : exn) :
  m ≫= f = Raise e ->
  m = Raise e \/ exists a, m = Ok a /\ f a = Raise e.
Proof. destruct m as [a|e']; simpl; [right; by exists a | intros [= ->]; by left]. Qed.

(** The walk raises [TypeError] and nothing else, and only on a string:
    the value it starts from, or the entry at a first part of the path
    that still has names after it. *)
Lemma walk_raises file parts : forall current e,
  walk file parts current = Raise e ->
  e = TypeError
  /\ (is_dir current = false
      \/ exists before after c,
           parts = before ++ after /\ before <> [] /\ after <> []
           /\ get_path before current = Some (File c)).
Proof.
  induction parts as [|part rest IH]; intros current e; [done|].
  destruct rest as [|p2 rest].
  - rewrite walk_last. destruct current as [c|d]; simpl.
    + destruct file; simpl.
      * intros [= <-]. split; [done | by left].
      * destruct (substring_in part c); simpl; [done|].
        intros [= <-]. split; [done | by left].
    + destruct file; simpl; [done|]. by destruct (dict_mem part d).
  - destruct current as [c|d].
    { rewrite walk_through_file. intros [= <-]. split; [done | by left]. }
    rewrite walk_cons. cbn [py_contains]. unfold dict_mem.
    destruct (dict_get part d) as [child|] eqn:Hget; cbn -[walk].
    + rewrite Hget. cbn -[walk].
      intros [Hw | (child' & _ & Hset)]%bind_Raise; [|done].
      apply IH in Hw as [-> Hcase]. split; [done|]. right.
      destruct Hcase as [Hfile | (before & after & c & Hparts & Hb & Ha & Hc)].
      * destruct child as [c|sub]; [|done].
        exists [part], (p2 :: rest), c. repeat split; try done.
        simpl. by rewrite Hget.
      * exists (part :: before), after, c. rewrite Hparts.
        repeat split; try done. rewrite get_path_cons_dir, Hget. simpl.
        exact Hc.
    + rewrite dict_get_set_eq. cbn -[walk].
      intros [Hw | (child' & _ & Hset)]%bind_Raise; [|done].
      apply IH in Hw as [-> Hcase].
      destruct Hcase as [Hfile | (before & after & c & Hparts & Hb & Ha & Hc)];
        [done|].
      destruct before as [|k before]; [done|]. done.
Qed.

(** X22: the only exception that a line of the Path Parser raises from a
    mapping is [TypeError], and it raises it only when a first part of
    the path of the line, with names still to come after it, is the path
    of a string that the mapping already holds. *)
Theorem path_line_raises_only_through_file root line e :
  is_dir root = true ->
  path_line root line = Raise e ->
  e = TypeError
  /\ exists before after c,
       entry_path (strip (replace_tree_chars line)) = before ++ after
       /\ before <> [] /\ after <> []
       /\ get_path before root = Some (File c).
Proof.
  intros Hroot. rewrite path_line_cleaned.
  destruct (strip (replace_tree_chars line)) as [|ch cl]; [done|].
  rewrite add_entry_walk. intros [-> Hcase]%walk_raises. split; [done|].
  destruct Hcase as [Hfile | Hthrough]; [congruence | done].
Qed.

Lemma path_line_raises_only_through_file_witness :
  TypeError = TypeError
  /\ exists before after c,
       entry_path (strip (replace_tree_chars (py "a.txt/b"))) = before ++ after
       /\ before <> [] /\ after <> []
       /\ get_path before (Dir [(py "a.txt", File [])]) = Some (File c).
Proof.
  exact (path_line_raises_only_through_file (Dir [(py "a.txt", File [])])
           (py "a.txt/b") TypeError eq_refl eq_refl).
Defined.

Lemma path_line_keeps_mapping root line root' :
  is_dir root = true -> path_line root line = Ok root' -> is_dir root' = true.
Proof.
  intros Hroot. rewrite path_line_cleaned.
  destruct (strip (replace_tree_chars line)) as [|ch cl]; [by intros [= <-]|].
  rewrite add_entry_walk. intros Hw.
  destruct (walk_kind _ _ _ _ Hw) as [_ Hdir]. by apply Hdir.
Qed.

(** X23: whatever the text is, the only exception that the Path Parser
    raises is [TypeError]. *)
Theorem path_parser_raises_only_type_error text e :
  parse_folder_structure text = Raise e -> e = TypeError.
Proof.
  unfold parse_folder_structure.
  assert (forall lines root, is_dir root = true ->
            path_lines lines root = Raise e -> e = TypeError) as H.
  { induction lines as [|line rest IH]; intros root Hroot; simpl; [done|].
    intros [Hline | (root1 & Hline & Hrest)]%bind_Raise.
    - rewrite path_line_cleaned in Hline.
      destruct (strip (replace_tree_chars line)) as [|ch cl]; [done|].
      rewrite add_entry_walk in Hline. by apply walk_raises in Hline as [-> _].
    - apply (IH root1); [|done]. by apply (path_line_keeps_mapping root line). }
  by apply H.
Qed.

Lemma path_parser_raises_only_type_error_witness :
  parse_folder_structure (py "a.txt" ++ [NEWLINE] ++ py "a.txt/b")
  = Raise TypeError
  /\ TypeError = TypeError.
Proof.
  split; [reflexivity|].
  exact (path_parser_raises_only_type_error
           (py "a.txt" ++ [NEWLINE] ++ py "a.txt/b") TypeError eq_refl).
Defined.
